(** * FiPy term algebra and van Leer convection term

    A shallow embedding of [fipy/terms/term.py] and
    [fipy/terms/vanLeerConvectionTerm.py].

    Floating point numbers are idealised as rationals ([Q]); every
    operation that has no rational value (division by zero) or that Python
    rejects (shape mismatch, index out of range) raises.  Python objects
    with identity live in a store and are named by their index. *)

From Stdlib Require Import QArith Qabs Qminmax Lqa.
From stdpp Require Import base option list strings gmap.

Local Open Scope Q_scope.

(** * Part one: the programs *)

(** ** Exceptions and the state-and-exception monad *)

Inductive exn : Type :=
| NotImplementedError (msg : string)
| Exception (msg : string)
| TypeError (msg : string)
| ValueError (msg : string)
| IndexError
| ZeroDivisionError
| AttributeError (attr : string)
| Foreign (msg : string).   (* raised inside a collaborator *)

Inductive outcome (A : Type) : Type :=
| Ok (a : A)
| Raise (e : exn).
Arguments Ok {A} a.
Arguments Raise {A} e.

(** A computation over a mutable state [S]: the state survives a raise, as
    the mutations of a Python object survive an exception. *)
Definition M (S A : Type) : Type := S -> outcome A * S.

Definition ret {S A} (a : A) : M S A := fun s => (Ok a, s).
Definition raise {S A} (e : exn) : M S A := fun s => (Raise e, s).
Definition bind {S A B} (m : M S A) (k : A -> M S B) : M S B :=
  fun s => match m s with
           | (Ok a, s') => k a s'
           | (Raise e, s') => (Raise e, s')
           end.
Definition get {S} : M S S := fun s => (Ok s, s).
Definition put {S} (s : S) : M S unit := fun _ => (Ok tt, s).
Definition modify {S} (f : S -> S) : M S unit := fun s => (Ok tt, f s).
Definition lift {S A} (o : outcome A) : M S A := fun s => (o, s).

Declare Scope py_scope.
Delimit Scope py_scope with py.
Notation "x <~ m ; k" := (bind m (fun x => k))
  (at level 20, m at level 100, k at level 200, only parsing)
  : py_scope.
Notation "' p <~ m ; k" := (bind m (fun x => match x with p => k end))
  (at level 20, p pattern, m at level 100, k at level 200, only parsing)
  : py_scope.

(** Pure fallible steps compose in [outcome] alone. *)
Definition obind {A B} (o : outcome A) (k : A -> outcome B) : outcome B :=
  match o with Ok a => k a | Raise e => Raise e end.
Notation "x <- o ; k" := (obind o (fun x => k))
  (at level 20, o at level 100, k at level 200, only parsing)
  : py_scope.

(** [inv J E m]: a run of [m] from a state in [J] ends in a state in [J],
    and what it raises, if anything, is in [E]. *)
Definition inv {S A} (J : S -> Prop) (E : exn -> Prop) (m : M S A) : Prop :=
  forall s, J s ->
    match m s with
    | (Ok _, s') => J s'
    | (Raise e, s') => J s' /\ E e
    end.

(** ** Numeric arrays (rank one) *)

Module Numeric.

Abbreviation array := (list Q).

Definition Qltb (x y : Q) : bool := negb (Qle_bool y x).

Definition Qzerob (x : Q) : bool := Qeq_bool x 0.

(** Broadcasting: two shapes agree when they are equal or one of them is 1,
    and an array of one element is stretched to the common shape. *)
Definition common (n m : nat) : outcome nat :=
  if decide (n = m) then Ok n
  else if decide (n = 1%nat) then Ok m
  else if decide (m = 1%nat) then Ok n
  else Raise (ValueError "frames are not aligned").

Definition stretch {A} (n : nat) (a : list A) : list A :=
  match a with
  | [x] => replicate n x
  | _ => a
  end.

Definition binop {A B C} (f : A -> B -> C) (a : list A) (b : list B)
  : outcome (list C) :=
  (n <- common (length a) (length b) ;
   Ok (zip_with f (stretch n a) (stretch n b)))%py.

Definition add : array -> array -> outcome array := binop Qplus.
Definition subtract : array -> array -> outcome array := binop Qminus.
Definition multiply : array -> array -> outcome array := binop Qmult.
Definition minimum : array -> array -> outcome array := binop Qmin.
Definition maximum : array -> array -> outcome array := binop Qmax.

(** In-place [a += b]: the result keeps the shape of [a]. *)
Definition iadd (a b : array) : outcome array :=
  (n <- common (length a) (length b) ;
   if decide (n = length a) then Ok (zip_with Qplus a (stretch n b))
   else Raise (ValueError "frames are not aligned"))%py.

Definition divide (a b : array) : outcome array :=
  if existsb Qzerob b then Raise ZeroDivisionError else binop Qdiv a b.

Definition negative (a : array) : array := Qopp <$> a.
Definition absolute (a : array) : array := Qabs <$> a.
Definition scalar_times (k : Q) (a : array) : array := Qmult k <$> a.
Definition times_scalar (a : array) (k : Q) : array := (fun x => x * k) <$> a.
Definition less_scalar (a : array) (k : Q) : list bool :=
  (fun x => Qltb x k) <$> a.
Definition greater_scalar (a : array) (k : Q) : list bool :=
  (fun x => Qltb k x) <$> a.

Definition scalar_divide (k : Q) (b : array) : outcome array :=
  if existsb Qzerob b then Raise ZeroDivisionError else Ok (Qdiv k <$> b).

Definition choose (c : bool) (x y : Q) : Q := if c then x else y.

(** [Numeric.where(c, x, y)] with a scalar [x]. *)
Definition where_scalar (c : list bool) (x : Q) (y : array) : outcome array :=
  binop (fun ci yi => choose ci x yi) c y.

(** [Numeric.where(c, x, y)] on three arrays. *)
Definition where_ (c : list bool) (x y : array) : outcome array :=
  (xy <- binop pair x y ;
   binop (fun ci p => choose ci (fst p) (snd p)) c xy)%py.

(** [array.take(a, ids)]. *)
Fixpoint take {A} (a : list A) (ids : list nat) : outcome (list A) :=
  match ids with
  | [] => Ok []
  | i :: ids' =>
      match a !! i with
      | Some x => (xs <- take a ids' ; Ok (x :: xs))%py
      | None => Raise IndexError
      end
  end.

(** [array.dot(a, b)]: the inner product of corresponding rows. *)
Definition inner (u v : list Q) : outcome Q :=
  if decide (length u = length v)
  then Ok (foldr Qplus 0 (zip_with Qmult u v))
  else Raise (ValueError "matrices are not aligned").

Fixpoint dot (a b : list (list Q)) : outcome array :=
  match a, b with
  | [], [] => Ok []
  | u :: a', v :: b' =>
      (x <- inner u v ; xs <- dot a' b' ; Ok (x :: xs))%py
  | _, _ => Raise (ValueError "frames are not aligned")
  end.

(** Python's builtin [min] over the elements of a sequence. *)
Definition py_min (a : array) : outcome Q :=
  match a with
  | [] => Raise (ValueError "min() arg is an empty sequence")
  | x :: rest => Ok (fold_left (fun m y => if Qltb y m then y else m) rest x)
  end.

End Numeric.

(** ** The van Leer convection term *)

Module VanLeerConvectionTerm.
Import Numeric.
Local Open Scope py_scope.

Definition getGradient (normalGradient gradUpwind : array) : outcome array :=
  gradUpUpwind <- add (negative gradUpwind) (scalar_times 2 normalGradient) ;
  product <- multiply gradUpwind gradUpUpwind ;
  lo <- minimum gradUpwind gradUpUpwind ;
  lo_abs <- minimum (absolute gradUpwind) (absolute gradUpUpwind) ;
  inner_where <- where_ (greater_scalar gradUpUpwind 0) lo (negative lo_abs) ;
  where_scalar (less_scalar product 0) 0 inner_where.

Record Mesh : Type := {
  getInteriorFaceIDs : list nat;
  getFaceAreas : array;
  getOrientedFaceNormals : list (list Q);
  getCellDistances : array;
  getCellVolumes : array
}.

Record CellVariable : Type := {
  getValue : array;
  getGrad : list (list Q)
}.

(** The attributes of the term that the two methods read and write.  [CFL]
    does not exist before [getOldAdjacentValues] has run. *)
Record Term : Type := {
  coeff : array;
  dt : Q;
  mesh : Mesh;
  CFL : option array
}.

Definition set_CFL (c : array) (self : Term) : Term :=
  {| coeff := coeff self; dt := dt self; mesh := mesh self; CFL := Some c |}.

Definition get_CFL : M Term array :=
  self <~ get ;
  match CFL self with
  | Some c => ret c
  | None => raise (AttributeError "CFL")
  end.

Section Methods.

(** The method of the parent class [ExplicitUpwindConvectionTerm], whose
    module is not part of these sources. *)
Variable ExplicitUpwind_getOldAdjacentValues :
  Term -> CellVariable -> list nat -> list nat -> outcome (array * array).

Definition getOldAdjacentValues (oldArray : CellVariable) (id1 id2 : list nat)
  : M Term (array * array) :=
  self <~ get ;
  ' (oldArray1, oldArray2) <~
    lift (ExplicitUpwind_getOldAdjacentValues self oldArray id1 id2) ;
  let interiorIDs := getInteriorFaceIDs (mesh self) in
  interiorFaceAreas <~ lift (take (getFaceAreas (mesh self)) interiorIDs) ;
  interiorFaceNormals <~
    lift (take (getOrientedFaceNormals (mesh self)) interiorIDs) ;
  faceCoeff <~ lift (take (coeff self) interiorIDs) ;
  let interiorCFL := times_scalar (absolute faceCoeff) (dt self) in
  difference <~ lift (subtract oldArray2 oldArray1) ;
  distances <~ lift (take (getCellDistances (mesh self)) interiorIDs) ;
  gradUpwind <~ lift (divide difference distances) ;
  vol1 <~ lift (take (getCellVolumes (mesh self)) id1) ;
  cfl1 <~ lift (divide interiorCFL vol1) ;
  u1 <~ modify (set_CFL cfl1) ;
  grad1 <~ lift (take (getGrad oldArray) id1) ;
  normalGradient1 <~ lift (dot grad1 interiorFaceNormals) ;
  limited1 <~ lift (getGradient normalGradient1 gradUpwind) ;
  room1 <~ lift (subtract vol1 interiorCFL) ;
  scaled1 <~ lift (multiply (scalar_times (1 # 2) limited1) room1) ;
  correction1 <~ lift (divide scaled1 interiorFaceAreas) ;
  oldArray1' <~ lift (iadd oldArray1 correction1) ;
  vol2 <~ lift (take (getCellVolumes (mesh self)) id2) ;
  cfl2 <~ lift (divide interiorCFL vol2) ;
  stored <~ get_CFL ;
  cfl <~ lift (maximum cfl2 stored) ;
  u2 <~ modify (set_CFL cfl) ;
  grad2 <~ lift (take (getGrad oldArray) id2) ;
  normalGradient2 <~
    lift (dot grad2 (fmap negative interiorFaceNormals)) ;
  limited2 <~ lift (getGradient normalGradient2 (negative gradUpwind)) ;
  room2 <~ lift (subtract vol2 interiorCFL) ;
  scaled2 <~ lift (multiply (scalar_times (1 # 2) limited2) room2) ;
  correction2 <~ lift (divide scaled2 interiorFaceAreas) ;
  oldArray2' <~ lift (iadd oldArray2 correction2) ;
  ret (oldArray1', oldArray2').

Definition getFigureOfMerit : M Term Q :=
  cfl <~ get_CFL ;
  ratios <~ lift (scalar_divide (2 # 10) cfl) ;
  lift (py_min ratios).

End Methods.

(** The limiter on one pair of gradients, as the nested [where] selects. *)
Definition limited (n u : Q) : Q :=
  let uu := - u + 2 * n in
  choose (Qltb (u * uu) 0) 0
    (choose (Qltb 0 uu) (Qmin u uu) (- Qmin (Qabs u) (Qabs uu))).


(** For the examples, a parent method that hands over the values of the two
    cells next to each interior face. *)
Definition adjacent_values (self : Term) (oldArray : CellVariable)
    (id1 id2 : list nat) : outcome (array * array) :=
  (a1 <- take (getValue oldArray) id1 ;
   a2 <- take (getValue oldArray) id2 ;
   Ok (a1, a2))%py.

(** A uniform one-dimensional mesh of ten unit cells, with unit velocity
    and [dt = 0.1]. *)
Definition grid10 : Mesh := {|
  getInteriorFaceIDs := seq 1 9;
  getFaceAreas := replicate 11 1;
  getOrientedFaceNormals := replicate 11 [1];
  getCellDistances := replicate 11 1;
  getCellVolumes := replicate 10 1
|}.

Definition term10 : Term :=
  {| coeff := replicate 11 1; dt := 1 # 10; mesh := grid10; CFL := None |}.

Definition ramp10 : CellVariable :=
  {| getValue := (fun n => inject_Z (Z.of_nat n)) <$> seq 0 10;
     getGrad := replicate 10 [1] |}.

Definition run10 : outcome (array * array) * Term :=
  getOldAdjacentValues adjacent_values ramp10 (seq 0 9) (seq 1 9) term10.

Definition values10 : array * array :=
  match run10.1 with Ok r => r | Raise _ => ([], []) end.


(** A mesh of a single cell: two faces, none of them interior. *)
Definition grid1 : Mesh := {|
  getInteriorFaceIDs := [];
  getFaceAreas := [1; 1];
  getOrientedFaceNormals := [[1]; [1]];
  getCellDistances := [1; 1];
  getCellVolumes := [1]
|}.

Definition term1 : Term :=
  {| coeff := [1; 1]; dt := 1 # 10; mesh := grid1; CFL := None |}.

Definition point1 : CellVariable := {| getValue := [0]; getGrad := [[0]] |}.

Definition run1 : outcome (array * array) * Term :=
  getOldAdjacentValues adjacent_values point1 [] [] term1.

End VanLeerConvectionTerm.

(** ** The convection coefficient of the surfactant equation *)

Module SurfactantEquation.
Import Numeric.
Local Open Scope py_scope.

(** A rank-two array is the list of its rows, all of one length. *)
Definition shape (a : list array) : nat * nat :=
  (length a, match a with [] => 0%nat | row :: _ => length row end).

(** [a / b[:, NewAxis]]: each row of [a] divided by the entry of [b] for
    that row. *)
Definition divide_rows (a : list array) (b : array) : outcome (list array) :=
  if existsb Qzerob b then Raise ZeroDivisionError
  else binop (fun row m => (fun x => x / m) <$> row) a b.

(** [Numeric.resize(a, (rows, cols))] of a rank-one array: copies of [a],
    one after the other, fill the new array row by row; an empty [a] gives
    zeros, and no array can be made of no copy at all. *)
Definition resize (a : array) (rows cols : nat) : outcome (list array) :=
  match a with
  | [] => Ok (replicate rows (replicate cols 0))
  | _ =>
      let total_size := (rows * cols)%nat in
      if decide (total_size = 0%nat)
      then Raise (ValueError "Concatenation of zero-length tuples is impossible.")
      else Ok (reshape (replicate rows cols)
                 (firstn total_size (concat (replicate total_size a))))
  end.

(** [Numeric.where(c > 0., x, 0.)] on rank-two arrays. *)
Definition where_positive (c x : list array) : outcome (list array) :=
  binop (fun crow xrow => zip_with (fun ci xi => choose (Qltb 0 ci) xi 0)
                            crow xrow) c x.

(** [ConvectionCoeff.calcValue]: from the face gradient of the distance
    variable, the magnitude of that gradient and the arithmetic face value
    of the variable, as the variable hands them over, to the value the
    method assigns. *)
Definition calcValue (getFaceGrad : list array) (getMag : array)
    (getArithmeticFaceValue : array) : outcome (list array) :=
  let faceGradMag :=
    (fun m => choose (Qltb m (1 # 10000000000)) (1 # 10000000000) m)
      <$> getMag in
  normal <- divide_rows getFaceGrad faceGradMag ;
  faceValue <- resize getArithmeticFaceValue (shape normal).1 (shape normal).2 ;
  where_positive faceValue normal.

End SurfactantEquation.

(** ** Terms *)

Module Term.
Local Open Scope py_scope.

Abbreviation Matrix := (list (list Q)).
Abbreviation Vec := (list Q).

(** *** Python values that meet a term *)

Inductive number : Type :=
| PyInt (z : Z)
| PyFloat (q : Q).

(** A variable used as an operand or as a coefficient, kept symbolic. *)
Inductive vexpr : Type :=
| VName (name : string)
| VNeg (e : vexpr)
| VScale (k : number) (e : vexpr).

(** The right-hand operand of an operator. *)
Inductive operand : Type :=
| ONum (n : number)
| OTerm (l : nat)
| OVar (e : vexpr)
| OStr (s : string)
| ONone.

Inductive coefficient : Type :=
| CNum (n : number)
| CSeq (xs : list number)        (* a tuple or a list *)
| CArray (xs : list Q)           (* a numerix array *)
| CVar (e : vexpr).

(** The solution variable a term is solved for. *)
Record Var : Type := {
  name : string;
  floats : bool;       (* its typecode is one of the float typecodes *)
  getMesh : nat
}.

Definition to_float (n : number) : Q :=
  match n with PyInt z => inject_Z z | PyFloat q => q end.

Definition neg_number (n : number) : number :=
  match n with PyInt z => PyInt (- z) | PyFloat q => PyFloat (- q) end.

Definition mul_number (k n : number) : number :=
  match k, n with
  | PyInt a, PyInt b => PyInt (a * b)
  | _, _ => PyFloat (to_float k * to_float n)
  end.

(** [isinstance(other, (int, float)) and other == 0] *)
Definition is_zero_number (other : operand) : bool :=
  match other with
  | ONum (PyInt z) => Z.eqb z 0
  | ONum (PyFloat q) => Qeq_bool q 0
  | _ => false
  end.

(** [-coeff] for a coefficient that is not a tuple or a list. *)
Definition neg_coefficient (c : coefficient) : outcome coefficient :=
  match c with
  | CNum n => Ok (CNum (neg_number n))
  | CArray xs => Ok (CArray (Qopp <$> xs))
  | CVar e => Ok (CVar (VNeg e))
  | CSeq _ => Raise (TypeError "bad operand type for unary -")
  end.

(** [other * coeff] for an int or float [other]. *)
Definition mul_coefficient (k : number) (c : coefficient) : outcome coefficient :=
  match c with
  | CNum n => Ok (CNum (mul_number k n))
  | CArray xs => Ok (CArray (Qmult (to_float k) <$> xs))
  | CVar e => Ok (CVar (VScale k e))
  | CSeq xs =>
      match k with
      | PyInt z => Ok (CSeq (concat (replicate (Z.to_nat z) xs)))
      | PyFloat _ =>
          Raise (TypeError "can't multiply sequence by non-int of type 'float'")
      end
  end.

(** *** Term instances *)

Record Obj : Type := {
  cls : string;                       (* self.__class__.__name__ *)
  parts : option (nat * operand);     (* term and other of a composite *)
  coeff : coefficient;
  geomCoeff : option (list Q);
  _cacheMatrix : bool;
  matrix : option Matrix;
  _cacheRHSvector : bool;
  RHSvector : option Vec;
  var : option Var
}.

(** Calls that leave term.py, and warnings, in the order they happen. *)
Inductive event : Type :=
| Warn (msg : string)
| ResetBoundaryConditionApplied (bc : nat)
| NewViewer
| BuildMatrix (self : nat) (v : Var) (dt : Q)
| StoreMatrix (v : Var) (m : Matrix) (b : Vec)
| ApplyUnderRelaxation (underRelaxation : option Q)
| CalcResidual
| CalcResidualVector
| Solve
| Plot (title : string) (m : Matrix) (b : Vec)
| RawInput.

Record World : Type := {
  heap : list Obj;                    (* Term instances, by identity *)
  values : gmap string (list Q);      (* value of each solution variable *)
  display_matrix : bool;              (* FIPY_DISPLAY_MATRIX is set *)
  viewer : bool;                      (* Term._viewer exists *)
  log : list event
}.

Definition set_heap (h : list Obj) (w : World) : World :=
  {| heap := h; values := values w; display_matrix := display_matrix w;
     viewer := viewer w; log := log w |}.
Definition set_values (v : gmap string (list Q)) (w : World) : World :=
  {| heap := heap w; values := v; display_matrix := display_matrix w;
     viewer := viewer w; log := log w |}.
Definition set_viewer (b : bool) (w : World) : World :=
  {| heap := heap w; values := values w; display_matrix := display_matrix w;
     viewer := b; log := log w |}.
Definition add_log (evs : list event) (w : World) : World :=
  {| heap := heap w; values := values w; display_matrix := display_matrix w;
     viewer := viewer w; log := log w ++ evs |}.
Definition emit (e : event) : M World unit := modify (add_log [e]).

Definition deref (self : nat) : M World Obj :=
  w <~ get ;
  match heap w !! self with
  | Some o => ret o
  | None => raise (Foreign "no such instance")
  end.

(** Assignments to attributes of [self]: the instance is changed in
    place. *)
Definition update (self : nat) (f : Obj -> Obj) : M World unit :=
  w <~ get ;
  match heap w !! self with
  | Some o => put (set_heap (<[self := f o]> (heap w)) w)
  | None => raise (Foreign "no such instance")
  end.

Definition alloc (o : Obj) : M World nat :=
  w <~ get ;
  u <~ modify (set_heap (heap w ++ [o])) ;
  ret (length (heap w)).

Definition __init__ (class : string) (coeff : coefficient) (var : option Var)
  : outcome Obj :=
  if decide (class = "Term")
  then Raise (NotImplementedError "can't instantiate abstract base class")
  else Ok {| cls := class; parts := None; coeff := coeff; geomCoeff := None;
             _cacheMatrix := false; matrix := None;
             _cacheRHSvector := false; RHSvector := None; var := var |}.

(** [class(coeff, var=var)] *)
Definition new (class : string) (coeff : coefficient) (var : option Var)
  : M World nat :=
  o <~ lift (__init__ class coeff var) ;
  alloc o.

Definition binary_node (term : nat) (other : operand) : Obj :=
  {| cls := "_BinaryTerm"; parts := Some (term, other);
     coeff := CNum (PyFloat 1); geomCoeff := None;
     _cacheMatrix := false; matrix := None;
     _cacheRHSvector := false; RHSvector := None; var := None |}.

Definition coupled_node (term other : nat) : Obj :=
  {| cls := "_CoupledBinaryTerm"; parts := Some (term, OTerm other);
     coeff := CNum (PyFloat 1); geomCoeff := None;
     _cacheMatrix := false; matrix := None;
     _cacheRHSvector := false; RHSvector := None; var := None |}.

Definition leaf_node (class : string) (c : coefficient) (v : option Var) : Obj :=
  {| cls := class; parts := None; coeff := c; geomCoeff := None;
     _cacheMatrix := false; matrix := None;
     _cacheRHSvector := false; RHSvector := None; var := v |}.

(** *** The operators *)

Section Operators.

(** The composite classes [_BinaryTerm] and [_CoupledBinaryTerm] are defined
    in fipy/terms/binaryTerm.py and fipy/terms/coupledBinaryTerm.py, which
    are not among the sources: their constructors, and the [__neg__] they
    override, are taken as given. *)
Variable _BinaryTerm : nat -> operand -> M World nat.
Variable _CoupledBinaryTerm : nat -> nat -> M World nat.
Variable composite_neg : nat -> M World nat.

Definition __add__ (self : nat) (other : operand) : M World nat :=
  if is_zero_number other then ret self else _BinaryTerm self other.

Definition __radd__ : nat -> operand -> M World nat := __add__.

Definition __neg__ (self : nat) : M World nat :=
  o <~ deref self ;
  match coeff o with
  | CSeq xs => new (cls o) (CArray (Qopp <$> (to_float <$> xs))) (var o)
  | c => c' <~ lift (neg_coefficient c) ; new (cls o) c' (var o)
  end.

Definition __pos__ (self : nat) : M World nat := ret self.

(** [-other] *)
Definition neg_operand (other : operand) : M World operand :=
  match other with
  | ONum n => ret (ONum (neg_number n))
  | OTerm l =>
      o <~ deref l ;
      l' <~ match parts o with
            | Some _ => composite_neg l
            | None => __neg__ l
            end ;
      ret (OTerm l')
  | OVar e => ret (OVar (VNeg e))
  | OStr _ | ONone => raise (TypeError "bad operand type for unary -")
  end.

Definition __sub__ (self : nat) (other : operand) : M World nat :=
  other' <~ neg_operand other ;
  __add__ self other'.

Definition __eq__ (self : nat) (other : operand) : M World nat :=
  __sub__ self other.

Definition __mul__ (self : nat) (other : operand) : M World nat :=
  match other with
  | ONum k =>
      o <~ deref self ;
      c <~ lift (mul_coefficient k (coeff o)) ;
      new (cls o) c (var o)
  | _ => raise (Exception "Must multiply terms by int or float.")
  end.

Definition __rmul__ : nat -> operand -> M World nat := __mul__.

Definition __and__ (self : nat) (other : operand) : M World nat :=
  match other with
  | OTerm l => _CoupledBinaryTerm self l
  | _ => raise (Exception "")
  end.

End Operators.

(** Modelled from the spec: the constructor of [_BinaryTerm]
    (fipy/terms/binaryTerm.py), a pair of sub-terms combined by addition
    where [other] may be another term or a plain scalar; composition
    returns a new composite and leaves the operands alone. *)
Definition BinaryTerm_new (term : nat) (other : operand) : M World nat :=
  alloc (binary_node term other).

(** Modelled from the spec: the constructor of [_CoupledBinaryTerm]
    (fipy/terms/coupledBinaryTerm.py), a pair of sub-terms combined by
    coupling. *)
Definition CoupledBinaryTerm_new (term other : nat) : M World nat :=
  alloc (coupled_node term other).

(** *** The other operators and methods of [Term] *)

Definition copy (self : nat) : M World nat :=
  o <~ deref self ;
  new (cls o) (coeff o) (var o).

(** [1 / other] for an int or a float; between two ints Python 2 divides
    to the floor. *)
Definition reciprocal (n : number) : outcome number :=
  match n with
  | PyInt z => if Z.eqb z 0 then Raise ZeroDivisionError else Ok (PyInt (1 / z))
  | PyFloat q =>
      if Qeq_bool q 0 then Raise ZeroDivisionError else Ok (PyFloat (1 / q))
  end.

Section ReverseOperators.

Variable _BinaryTerm : nat -> operand -> M World nat.
Variable composite_neg : nat -> M World nat.

(** What [(1 / v) * self] gives for a variable [v]: the business of the
    [Variable] class, which is not among the sources. *)
Variable reciprocal_times_term : vexpr -> nat -> M World nat.

(** [other - self], reached when the left operand is a number. *)
Definition __rsub__ (self : nat) (other : number) : M World nat :=
  o <~ deref self ;
  negated <~ match parts o with
             | Some _ => composite_neg self
             | None => __neg__ self
             end ;
  __radd__ _BinaryTerm negated (ONum other).

Definition __div__ (self : nat) (other : operand) : M World nat :=
  match other with
  | ONum n => k <~ lift (reciprocal n) ; __rmul__ self (ONum k)
  | OVar e => reciprocal_times_term e self
  | OTerm _ | OStr _ | ONone =>
      raise (TypeError "unsupported operand type(s) for /")
  end.

End ReverseOperators.

(** Coefficients that are the same number, or the same numbers. *)
Definition same_number (a b : number) : Prop :=
  match a, b with
  | PyInt x, PyInt y => x = y
  | PyFloat p, PyFloat q => p == q
  | _, _ => False
  end.

Definition same_coefficient (c d : coefficient) : Prop :=
  match c, d with
  | CNum a, CNum b => same_number a b
  | CSeq xs, CSeq ys => Forall2 same_number xs ys
  | CArray xs, CArray ys => Forall2 Qeq xs ys
  | CVar e, CVar f => e = f
  | _, _ => False
  end.

(** [-coeff] as [__neg__] takes it, a tuple or a list going through
    [numerix.array]. *)
Definition negated (c : coefficient) : coefficient :=
  match c with
  | CNum n => CNum (neg_number n)
  | CSeq xs => CArray (Qopp <$> (to_float <$> xs))
  | CArray xs => CArray (Qopp <$> xs)
  | CVar e => CVar (VNeg e)
  end.

(** What an operator that derives a term from [self] leaves behind: a new
    leaf of the class and variable of [self] after every instance there
    was, or nothing at all when it raises. *)
Definition derived (self : nat) (w : World) (r : outcome nat) (w' : World)
  : Prop :=
  match r with
  | Ok l =>
      exists o c,
        heap w !! self = Some o /\ l = length (heap w) /\
        w' = set_heap (heap w ++ [leaf_node (cls o) c (var o)]) w
  | Raise _ => w' = w
  end.

(** *** Building and solving *)

(** [boundaryConditions]: one condition, or a tuple or list of them. *)
Inductive bcarg : Type :=
| OneBC (bc : nat)
| ManyBC (bcs : list nat).

(** [dt]: a number, or something with a shape, named by its type. *)
Inductive dtarg : Type :=
| DtNumber (n : number)
| DtShaped (type_name : string) (xs : list Q).

Abbreviation ResidualFn := (Var -> Matrix -> Vec -> Vec).
Abbreviation Values := (gmap string (list Q)).

(** The solver, a collaborator: what a call does to the solver and, for
    [_solve], to the values of the variables.  A call may raise. *)
Class SolverInterface (Solver : Type) : Type := {
  DefaultSolver : Solver;
  _getMatrixClass : Solver -> nat -> Matrix;
  _storeMatrix : Var -> Matrix -> Vec -> Solver -> Solver;
  _solve : Solver -> Values -> string + Solver * Values;
  _applyUnderRelaxation : option Q -> Solver -> string + Solver;
  _calcResidual : option ResidualFn -> Solver -> Values -> string + Q;
  _calcResidualVector : option ResidualFn -> Solver -> Values -> string + Vec;
  L2norm : Vec -> Q
}.

(** The methods a subclass may define itself; [None] where it inherits the
    method of [Term]. *)
Record Subclass (Solver : Type) : Type := {
  _buildMatrix :
    option (Obj -> Var -> Matrix -> list nat -> Q ->
            option (list Q) -> option (list Q) -> Values ->
            string + Var * Matrix * Vec);
  _verifyCoeffType : option (Obj -> Var -> string + unit);
  _getDefaultSolver : option (Obj -> option Solver -> option Solver);
  _getTransientGeomCoeff : option (Obj -> nat -> option (list Q));
  _getDiffusionGeomCoeff : option (Obj -> nat -> option (list Q))
}.
Arguments _buildMatrix {Solver} _.
Arguments _verifyCoeffType {Solver} _.
Arguments _getDefaultSolver {Solver} _.
Arguments _getTransientGeomCoeff {Solver} _.
Arguments _getDiffusionGeomCoeff {Solver} _.

(** What a collaborator raises is kept apart from what term.py raises. *)
Definition foreign {A} (r : string + A) : outcome A :=
  match r with inl msg => Raise (Foreign msg) | inr a => Ok a end.

Definition _verifyVar (self : Obj) (var : option Var) : outcome Var :=
  match var with
  | None =>
      match Term.var self with
      | None => Raise (Exception "The solution variable needs to be specified")
      | Some v => Ok v
      end
  | Some v => Ok v
  end.

Definition float_dt (dt : dtarg) : outcome Q :=
  match dt with
  | DtNumber n => Ok (to_float n)
  | DtShaped type_name _ =>
      Raise (TypeError ("`dt` must be a single number, not a " +:+ type_name))
  end.

Definition as_tuple (boundaryConditions : bcarg) : list nat :=
  match boundaryConditions with
  | OneBC bc => [bc]
  | ManyBC bcs => bcs
  end.

Fixpoint reset_all (bcs : list nat) : M World unit :=
  match bcs with
  | [] => ret tt
  | bc :: rest =>
      u <~ emit (ResetBoundaryConditionApplied bc) ; reset_all rest
  end.

Definition set_matrix (m : option Matrix) (o : Obj) : Obj :=
  {| cls := cls o; parts := parts o; coeff := coeff o;
     geomCoeff := geomCoeff o;
     _cacheMatrix := _cacheMatrix o; matrix := m;
     _cacheRHSvector := _cacheRHSvector o; RHSvector := RHSvector o;
     var := var o |}.

Definition set_RHSvector (b : option Vec) (o : Obj) : Obj :=
  {| cls := cls o; parts := parts o; coeff := coeff o;
     geomCoeff := geomCoeff o;
     _cacheMatrix := _cacheMatrix o; matrix := matrix o;
     _cacheRHSvector := _cacheRHSvector o; RHSvector := b;
     var := var o |}.

Definition set_cacheMatrix (o : Obj) : Obj :=
  {| cls := cls o; parts := parts o; coeff := coeff o;
     geomCoeff := geomCoeff o;
     _cacheMatrix := true; matrix := matrix o;
     _cacheRHSvector := _cacheRHSvector o; RHSvector := RHSvector o;
     var := var o |}.

Definition set_cacheRHSvector (o : Obj) : Obj :=
  {| cls := cls o; parts := parts o; coeff := coeff o;
     geomCoeff := geomCoeff o;
     _cacheMatrix := _cacheMatrix o; matrix := matrix o;
     _cacheRHSvector := true; RHSvector := RHSvector o;
     var := var o |}.

Definition cacheMatrix (self : nat) : M World unit :=
  update self set_cacheMatrix.

Definition getMatrix (self : nat) : M World (option Matrix) :=
  o <~ deref self ;
  u <~ (if _cacheMatrix o then ret tt
        else u <~ emit (Warn "cacheMatrix() should be called followed by sweep() or solve() to calculate the matrix. None will be returned on this occasion.") ;
             cacheMatrix self) ;
  o' <~ deref self ;
  ret (matrix o').

Definition cacheRHSvector (self : nat) : M World unit :=
  update self set_cacheRHSvector.

Definition getRHSvector (self : nat) : M World (option Vec) :=
  o <~ deref self ;
  u <~ (if _cacheRHSvector o then ret tt
        else u <~ emit (Warn "getRHSvector should be called after cacheRHSvector() and either sweep() or solve() to calculate the RHS vector. None will be returned on this occasion.") ;
             cacheRHSvector self) ;
  o' <~ deref self ;
  ret (RHSvector o').

Definition is_setup (e : event) : bool :=
  match e with
  | Warn _ | ResetBoundaryConditionApplied _ | NewViewer => true
  | _ => false
  end.

Definition is_display (e : event) : bool :=
  match e with
  | Plot _ _ _ | RawInput => true
  | _ => false
  end.

(** The instance after the two assignments that end a build. *)
Definition cache (o : Obj) (m : Matrix) (b : Vec) : Obj :=
  set_RHSvector (if _cacheRHSvector o then Some b else None)
    (set_matrix (if _cacheMatrix o then Some m else None) o).

Definition grows (evs : list event) (w w' : World) : Prop :=
  heap w' = heap w /\ values w' = values w /\
  display_matrix w' = display_matrix w /\ log w' = log w ++ evs.

Definition missing_variable : exn :=
  Exception "The solution variable needs to be specified".

(** An instance keeps some property of its attributes. *)
Definition holds (self : nat) (P : Obj -> Prop) (w : World) : Prop :=
  exists o, heap w !! self = Some o /\ P o.

Definition flags (fm fr : bool) (o : Obj) : Prop :=
  _cacheMatrix o = fm /\ _cacheRHSvector o = fr /\
  (fm = false -> matrix o = None) /\ (fr = false -> RHSvector o = None).

(** The system handed to the solver last. *)
Definition stored (e : event) : option (Var * Matrix * Vec) :=
  match e with StoreMatrix v m b => Some (v, m, b) | _ => None end.

Definition last_stored (evs : list event) : option (Var * Matrix * Vec) :=
  last (omap stored evs).

(** Invariants that no step of a build disturbs. *)
Record stable (J : World -> Prop) : Prop := {
  stable_log : forall e w, e <> Solve -> J w -> J (add_log [e] w);
  stable_viewer : forall b w, J w -> J (set_viewer b w);
  stable_matrix : forall self o m w,
    heap w !! self = Some o -> J w ->
    J (set_heap (<[self := set_matrix
                             (if _cacheMatrix o then Some m else None) o]>
                   (heap w)) w);
  stable_RHSvector : forall self o b w,
    heap w !! self = Some o -> J w ->
    J (set_heap (<[self := set_RHSvector
                             (if _cacheRHSvector o then Some b else None) o]>
                   (heap w)) w)
}.

Definition foreign_ok (E : exn -> Prop) : Prop :=
  forall msg, E (Foreign msg) /\ E (TypeError msg) /\ E (NotImplementedError msg).

Section Solving.

Context {Solver : Type} `{!SolverInterface Solver}.
Variable subclass : string -> Subclass Solver.

Definition call_buildMatrix (o : Obj) (v : Var) (m : Matrix) (bcs : list nat)
    (dt : Q) (vals : Values) : outcome (Var * Matrix * Vec) :=
  let transientGeomCoeff :=
    match _getTransientGeomCoeff (subclass (cls o)) with
    | Some f => f o (getMesh v)
    | None => None
    end in
  let diffusionGeomCoeff :=
    match _getDiffusionGeomCoeff (subclass (cls o)) with
    | Some f => f o (getMesh v)
    | None => None
    end in
  match _buildMatrix (subclass (cls o)) with
  | Some f =>
      foreign (f o v m bcs dt transientGeomCoeff diffusionGeomCoeff vals)
  | None => Raise (NotImplementedError "")
  end.

Definition call_verifyCoeffType (o : Obj) (v : Var) : outcome unit :=
  match _verifyCoeffType (subclass (cls o)) with
  | Some f => foreign (f o v)
  | None => Ok tt
  end.

Definition _checkVar (o : Obj) (v : Var) : M World unit :=
  u <~ (if floats v then ret tt
        else emit (Warn "sweep() or solve() are likely to produce erroneous results when `var` does not contain floats.")) ;
  lift (call_verifyCoeffType o v).

Definition getDefaultSolver (o : Obj) (solver : option Solver) : Solver :=
  let own :=
    match _getDefaultSolver (subclass (cls o)) with
    | Some f => f o solver
    | None => None
    end in
  match own with
  | Some s => s
  | None => match solver with Some s => s | None => DefaultSolver end
  end.

(** [__buildMatrix], from [self._checkVar(var)] on. *)
Definition build_rest (self : nat) (o : Obj) (v : Var) (solver : Solver)
    (boundaryConditions : bcarg) (dt : dtarg) : M World Solver :=
  u <~ _checkVar o v ;
  dt' <~ lift (float_dt dt) ;
  let bcs := as_tuple boundaryConditions in
  u <~ reset_all bcs ;
  w <~ get ;
  u <~ (if display_matrix w
        then if viewer w then ret tt
             else u <~ emit NewViewer ; modify (set_viewer true)
        else ret tt) ;
  u <~ emit (BuildMatrix self v dt') ;
  ' (v', m, b) <~
    lift (call_buildMatrix o v (_getMatrixClass solver (getMesh v))
            bcs dt' (values w)) ;
  u <~ update self (fun o' =>
         set_matrix (if _cacheMatrix o' then Some m else None) o') ;
  u <~ update self (fun o' =>
         set_RHSvector (if _cacheRHSvector o' then Some b else None) o') ;
  u <~ emit (StoreMatrix v' m b) ;
  let solver' := _storeMatrix v' m b solver in
  u <~ (if display_matrix w
        then u <~ emit (Plot (name v' +:+ " " +:+ cls o) m b) ; emit RawInput
        else ret tt) ;
  ret solver'.

Definition __buildMatrix (self : nat) (var : option Var) (solver : Solver)
    (boundaryConditions : bcarg) (dt : dtarg) : M World Solver :=
  o <~ deref self ;
  v <~ lift (_verifyVar o var) ;
  build_rest self o v solver boundaryConditions dt.

Definition _prepareLinearSystem (self : nat) (var : option Var)
    (solver : option Solver) (boundaryConditions : bcarg) (dt : dtarg)
  : M World Solver :=
  o <~ deref self ;
  let solver := getDefaultSolver o solver in
  __buildMatrix self var solver boundaryConditions dt.

(** Calls on the solver. *)
Definition solver_solve (s : Solver) : M World Solver :=
  u <~ emit Solve ;
  w <~ get ;
  ' (s', vals) <~ lift (foreign (_solve s (values w))) ;
  u <~ modify (set_values vals) ;
  ret s'.

Definition solver_applyUnderRelaxation (underRelaxation : option Q)
    (s : Solver) : M World Solver :=
  u <~ emit (ApplyUnderRelaxation underRelaxation) ;
  lift (foreign (_applyUnderRelaxation underRelaxation s)).

Definition solver_calcResidual (residualFn : option ResidualFn) (s : Solver)
  : M World Q :=
  u <~ emit CalcResidual ;
  w <~ get ;
  lift (foreign (_calcResidual residualFn s (values w))).

Definition solver_calcResidualVector (residualFn : option ResidualFn)
    (s : Solver) : M World Vec :=
  u <~ emit CalcResidualVector ;
  w <~ get ;
  lift (foreign (_calcResidualVector residualFn s (values w))).

(** The solver object is passed by value: each entry point also returns
    the state it left the solver in. *)
Definition solve (self : nat) (var : option Var) (solver : option Solver)
    (boundaryConditions : bcarg) (dt : dtarg) : M World Solver :=
  solver <~ _prepareLinearSystem self var solver boundaryConditions dt ;
  solver_solve solver.

Definition sweep (self : nat) (var : option Var) (solver : option Solver)
    (boundaryConditions : bcarg) (dt : dtarg) (underRelaxation : option Q)
    (residualFn : option ResidualFn) : M World (Q * Solver) :=
  solver <~ _prepareLinearSystem self var solver boundaryConditions dt ;
  solver <~ solver_applyUnderRelaxation underRelaxation solver ;
  residual <~ solver_calcResidual residualFn solver ;
  solver <~ solver_solve solver ;
  ret (residual, solver).

Definition justResidualVector (self : nat) (var : option Var)
    (solver : option Solver) (boundaryConditions : bcarg) (dt : dtarg)
    (underRelaxation : option Q) (residualFn : option ResidualFn)
  : M World (Vec * Solver) :=
  solver <~ _prepareLinearSystem self var solver boundaryConditions dt ;
  solver <~ solver_applyUnderRelaxation underRelaxation solver ;
  vector <~ solver_calcResidualVector residualFn solver ;
  ret (vector, solver).

Definition residualVectorAndNorm (self : nat) (var : option Var)
    (solver : option Solver) (boundaryConditions : bcarg) (dt : dtarg)
    (underRelaxation : option Q) (residualFn : option ResidualFn)
  : M World (Vec * Q * Solver) :=
  solver <~ _prepareLinearSystem self var solver boundaryConditions dt ;
  solver <~ solver_applyUnderRelaxation underRelaxation solver ;
  vector <~ solver_calcResidualVector residualFn solver ;
  let L2norm := L2norm vector in
  ret (vector, L2norm, solver).

(** The four entry points that build the linear system. *)
Inductive entry : Type :=
| Solve_entry
| Sweep_entry (underRelaxation : option Q) (residualFn : option ResidualFn)
| JustResidualVector_entry (underRelaxation : option Q)
    (residualFn : option ResidualFn)
| ResidualVectorAndNorm_entry (underRelaxation : option Q)
    (residualFn : option ResidualFn).

Definition run (e : entry) (self : nat) (var : option Var)
    (solver : option Solver) (bcs : bcarg) (dt : dtarg) : M World unit :=
  match e with
  | Solve_entry =>
      r <~ solve self var solver bcs dt ; ret tt
  | Sweep_entry u rf =>
      r <~ sweep self var solver bcs dt u rf ; ret tt
  | JustResidualVector_entry u rf =>
      r <~ justResidualVector self var solver bcs dt u rf ; ret tt
  | ResidualVectorAndNorm_entry u rf =>
      r <~ residualVectorAndNorm self var solver bcs dt u rf ; ret tt
  end.

(** The solver calls that follow the build in each entry point. *)
Definition after_build (e : entry) : list event :=
  match e with
  | Solve_entry => [Solve]
  | Sweep_entry u _ => [ApplyUnderRelaxation u; CalcResidual; Solve]
  | JustResidualVector_entry u _
  | ResidualVectorAndNorm_entry u _ =>
      [ApplyUnderRelaxation u; CalcResidualVector]
  end.

(** What a caller may ask of one term, call after call; a call that raises
    is caught and the next one follows. *)
Inductive request : Type :=
| CallCacheMatrix
| CallGetMatrix
| CallCacheRHSvector
| CallGetRHSvector
| CallEntry (e : entry) (var : option Var) (solver : option Solver)
    (bcs : bcarg) (dt : dtarg).

Definition perform (self : nat) (r : request) : M World unit :=
  match r with
  | CallCacheMatrix => cacheMatrix self
  | CallGetMatrix => m <~ getMatrix self ; ret tt
  | CallCacheRHSvector => cacheRHSvector self
  | CallGetRHSvector => b <~ getRHSvector self ; ret tt
  | CallEntry e var solver bcs dt => run e self var solver bcs dt
  end.

Fixpoint session (self : nat) (rs : list request) (w : World) : World :=
  match rs with
  | [] => w
  | r :: rest => session self rest (perform self r w).2
  end.

(** [cacheMatrix()] was called, by the caller or by [getMatrix()]. *)
Definition asks_matrix (r : request) : bool :=
  match r with CallCacheMatrix | CallGetMatrix => true | _ => false end.

Definition asks_RHSvector (r : request) : bool :=
  match r with CallCacheRHSvector | CallGetRHSvector => true | _ => false end.

End Solving.

(** *** The worlds a build passes through *)

(** After [_checkVar]. *)
Definition checked (v : Var) (w : World) : World :=
  if floats v then w
  else add_log [Warn "sweep() or solve() are likely to produce erroneous results when `var` does not contain floats."] w.

(** At the call of [_buildMatrix]. *)
Definition readied (self : nat) (v : Var) (bcs : bcarg) (q : Q) (w : World)
  : World :=
  let w2 := add_log (ResetBoundaryConditionApplied <$> as_tuple bcs)
              (checked v w) in
  let w3 := if display_matrix w
            then if viewer w then w2
                 else set_viewer true (add_log [NewViewer] w2)
            else w2 in
  add_log [BuildMatrix self v q] w3.

(** When [__buildMatrix] returns. *)
Definition built (self : nat) (o : Obj) (v : Var) (bcs : bcarg) (q : Q)
    (v' : Var) (m : Matrix) (b : Vec) (w : World) : World :=
  let w5 := add_log [StoreMatrix v' m b]
              (set_heap (<[self := cache o m b]> (heap w))
                 (readied self v bcs q w)) in
  if display_matrix w
  then add_log [RawInput] (add_log [Plot (name v' +:+ " " +:+ cls o) m b] w5)
  else w5.

Definition is_viewer_event (e : event) : bool :=
  match e with
  | NewViewer | Plot _ _ _ | RawInput => true
  | _ => false
  end.

(** The log without what the matrix viewer did. *)
Definition undisplayed (evs : list event) : list event :=
  List.filter (fun e => negb (is_viewer_event e)) evs.

(** *** The geometric coefficient *)

Inductive geom_event : Type :=
| CalcGeomCoeff (self mesh : nat)
| DontCacheMe (self : nat).

Definition set_geomCoeff (g : option (list Q)) (o : Obj) : Obj :=
  {| cls := cls o; parts := parts o; coeff := coeff o; geomCoeff := g;
     _cacheMatrix := _cacheMatrix o; matrix := matrix o;
     _cacheRHSvector := _cacheRHSvector o; RHSvector := RHSvector o;
     var := var o |}.

(** A step on the instances, beside a record of the calls made for the
    coefficient. *)
Definition on_world {A} (m : M World A) : M (World * list geom_event) A :=
  fun s => let (r, w) := m s.1 in (r, (w, s.2)).

Definition note (e : geom_event) : M (World * list geom_event) unit :=
  modify (fun s => (s.1, s.2 ++ [e])).

Section Geometry.

(** [_calcGeomCoeff] as a class defines it; [None] where the class inherits
    the method of [Term], which returns [None]. *)
Variable _calcGeomCoeff :
  string -> option (Obj -> nat -> string + option (list Q)).

Definition call_calcGeomCoeff (o : Obj) (mesh : nat)
  : outcome (option (list Q)) :=
  match _calcGeomCoeff (cls o) with
  | Some f => foreign (f o mesh)
  | None => Ok None
  end.

Definition _getGeomCoeff (self mesh : nat)
  : M (World * list geom_event) (option (list Q)) :=
  o <~ on_world (deref self) ;
  u <~ match geomCoeff o with
       | None =>
           u <~ note (CalcGeomCoeff self mesh) ;
           g <~ lift (call_calcGeomCoeff o mesh) ;
           u <~ on_world (update self (set_geomCoeff g)) ;
           match g with
           | Some _ => note (DontCacheMe self)
           | None => ret tt
           end
       | Some _ => ret tt
       end ;
  o' <~ on_world (deref self) ;
  ret (geomCoeff o').

End Geometry.

(** *** A solver and a subclass for the examples *)

(** A solver that keeps the system it is handed and solves it as if the
    matrix were the identity.  The norm is left squared, its root not being
    rational. *)
Definition PlainSolver : Type := option (Var * Matrix * Vec).

#[export] Instance plain_solver : SolverInterface PlainSolver := {|
  DefaultSolver := None;
  _getMatrixClass := fun _ _ => [];
  _storeMatrix := fun v m b _ => Some (v, m, b);
  _solve := fun s vals =>
    match s with
    | Some (v, m, b) => inr (s, <[name v := b]> vals)
    | None => inl "no system stored"
    end;
  _applyUnderRelaxation := fun _ s => inr s;
  _calcResidual := fun _ _ _ => inr 0;
  _calcResidualVector := fun _ s _ =>
    match s with
    | Some (v, m, b) => inr b
    | None => inl "no system stored"
    end;
  L2norm := fun b => foldr Qplus 0 ((fun x => x * x) <$> b)
|}.

(** ["UnitTerm"] assembles a one-cell system; every other class, the
    [__Term] of the doctests among them, inherits the methods of [Term]. *)
Definition example_classes (class : string) : Subclass PlainSolver :=
  {| _buildMatrix :=
       if decide (class = "UnitTerm")
       then Some (fun _ v _ _ dt _ _ _ => inr (v, [[1]], [dt]))
       else None;
     _verifyCoeffType := None;
     _getDefaultSolver := None;
     _getTransientGeomCoeff := None;
     _getDiffusionGeomCoeff := None |}.

Definition varA : Var := {| name := "A"; floats := true; getMesh := 0 |}.

(** Two instances of the dummy subclass [__Term] of the doctests. *)
Definition world0 : World :=
  {| heap := [leaf_node "__Term" (CNum (PyFloat 1)) None;
              leaf_node "__Term" (CNum (PyFloat 2)) None];
     values := ∅; display_matrix := false; viewer := false; log := [] |}.

(** A [UnitTerm] made in [world0], asked to cache its matrix, and solved. *)
Definition unit_run : outcome unit * World :=
  run example_classes Solve_entry 2 (Some varA) None (ManyBC [])
    (DtNumber (PyFloat 1))
    (session example_classes 2 [CallCacheMatrix]
       (new "UnitTerm" (CNum (PyFloat 1)) None world0).2).

(** [world0] with a [UnitTerm] for the variable [A] added, and the same
    with [FIPY_DISPLAY_MATRIX] set. *)
Definition world1 : World :=
  (new "UnitTerm" (CNum (PyFloat 2)) (Some varA) world0).2.

Definition unit_term : Obj := leaf_node "UnitTerm" (CNum (PyFloat 2)) (Some varA).

Definition world1_displayed : World :=
  {| heap := heap world1; values := values world1; display_matrix := true;
     viewer := false; log := log world1 |}.

(** The first instance of [world0]. *)
Definition term_one : Obj := leaf_node "__Term" (CNum (PyFloat 1)) None.


Definition unit_build : outcome PlainSolver * World :=
  _prepareLinearSystem example_classes 2 None None (ManyBC [7%nat; 8%nat])
    (DtNumber (PyInt 1)) world1.

Definition unit_build_displayed : outcome PlainSolver * World :=
  _prepareLinearSystem example_classes 2 None None (ManyBC [7%nat; 8%nat])
    (DtNumber (PyInt 1)) world1_displayed.


(** No class of the examples computes a geometric coefficient, and no
    variable divides a term. *)
Definition no_geometry : string -> option (Obj -> nat -> string + option (list Q)) :=
  fun _ => None.

Definition no_variables : vexpr -> nat -> M World nat :=
  fun _ _ => raise (Foreign "Variable").

End Term.

(** * Part two: the facts *)

Local Open Scope py_scope.

(** ** Runs in the monad *)

Lemma obind_Ok {A B} (o : outcome A) (k : A -> outcome B) b :
  obind o k = Ok b -> exists a, o = Ok a /\ k a = Ok b.
Proof. destruct o as [a|e]; simpl; [eauto | discriminate]. Qed.

Lemma bind_Ok {S A B} (m : M S A) (k : A -> M S B) s b s' :
  bind m k s = (Ok b, s') ->
  exists a s1, m s = (Ok a, s1) /\ k a s1 = (Ok b, s').
Proof.
  unfold bind. destruct (m s) as [[a|e] s1]; [eauto | discriminate].
Qed.

Lemma lift_Ok {S A} (o : outcome A) (s s' : S) a :
  lift o s = (Ok a, s') -> o = Ok a /\ s' = s.
Proof. unfold lift. intros [= -> ->]. done. Qed.

Lemma get_Ok {S} (s s' a : S) : get s = (Ok a, s') -> a = s /\ s' = s.
Proof. unfold get. intros [= -> ->]. done. Qed.

Lemma modify_Ok {S} (f : S -> S) (s s' : S) u :
  modify f s = (Ok u, s') -> s' = f s.
Proof. unfold modify. by intros [= <-]. Qed.

(** Peel the first step off a run that ended normally. *)
Ltac step H :=
  let a := fresh "a" in
  let s := fresh "s" in
  let E := fresh "E" in
  apply bind_Ok in H as (a & s & E & H);
  lazymatch type of E with
  | lift _ _ = _ => apply lift_Ok in E as [E ->]
  | get _ = _ => apply get_Ok in E as [-> ->]
  | modify _ _ = _ => apply modify_Ok in E as ->
  | _ => idtac
  end.

Section Inv.
Context {S : Type} (J : S -> Prop) (E : exn -> Prop).

Lemma inv_bind {A B} (m : M S A) (k : A -> M S B) :
  inv J E m -> (forall a, inv J E (k a)) -> inv J E (bind m k).
Proof.
  intros Hm Hk s Hs. unfold bind. specialize (Hm s Hs).
  destruct (m s) as [[a|e] s']; [by apply Hk | done].
Qed.

Lemma inv_ret {A} (a : A) : inv J E (ret a).
Proof. by intros s Hs. Qed.

Lemma inv_raise {A} (e : exn) : E e -> inv J E (@raise S A e).
Proof. by intros He s Hs. Qed.

Lemma inv_lift {A} (o : outcome A) :
  (forall e, o = Raise e -> E e) -> inv J E (lift o).
Proof. intros Ho s Hs. unfold lift. destruct o; [done | eauto]. Qed.

Lemma inv_get : inv J E get.
Proof. by intros s Hs. Qed.

Lemma inv_modify (f : S -> S) : (forall s, J s -> J (f s)) -> inv J E (modify f).
Proof. intros Hf s Hs. by apply Hf. Qed.

End Inv.

(** ** Numeric arrays *)

Module NumericFacts.
Import Numeric.

Lemma Qltb_lt x y : Qltb x y = true <-> x < y.
Proof.
  unfold Qltb. rewrite negb_true_iff, <- not_true_iff_false, Qle_bool_iff.
  split; [apply Qnot_le_lt | apply Qlt_not_le].
Qed.

Lemma Qltb_nlt x y : Qltb x y = false <-> ~ x < y.
Proof. rewrite <- Qltb_lt. destruct (Qltb x y); intuition congruence. Qed.

(** Arrays of one shape combine element by element. *)
Lemma common_same n : common n n = Ok n.
Proof. unfold common. by rewrite decide_True. Qed.

Lemma stretch_same {A} (a : list A) : stretch (length a) a = a.
Proof. by destruct a as [|x [|y a]]. Qed.

Lemma binop_same {A B C} (f : A -> B -> C) a b :
  length a = length b -> binop f a b = Ok (zip_with f a b).
Proof.
  intros Hlen. unfold binop. rewrite Hlen, common_same. simpl.
  rewrite <- Hlen at 1. by rewrite !stretch_same.
Qed.

Lemma binop_same_inv {A B C} (f : A -> B -> C) a b r :
  length a = length b -> binop f a b = Ok r -> r = zip_with f a b.
Proof. intros Hlen. rewrite binop_same by done. congruence. Qed.

Lemma take_length {A} (a : list A) ids xs :
  take a ids = Ok xs -> length xs = length ids.
Proof.
  revert xs. induction ids as [|i ids IH]; intros xs; simpl.
  - by intros [= <-].
  - destruct (a !! i); [|discriminate].
    intros H. apply obind_Ok in H as (ys & Hys & [= <-]).
    simpl. f_equal. by apply IH.
Qed.

Lemma take_lookup {A} (a : list A) ids xs i f :
  take a ids = Ok xs -> ids !! i = Some f -> xs !! i = a !! f.
Proof.
  revert xs i. induction ids as [|j ids IH]; intros xs i; simpl; [done|].
  destruct (a !! j) as [x|] eqn:Hx; [|discriminate].
  intros H. apply obind_Ok in H as (ys & Hys & [= <-]).
  destruct i as [|i]; simpl.
  - intros [= <-]. done.
  - by apply IH.
Qed.

Lemma divide_same a b r :
  length a = length b -> divide a b = Ok r ->
  r = zip_with Qdiv a b /\ existsb Qzerob b = false.
Proof.
  unfold divide. intros Hlen. destruct (existsb Qzerob b); [discriminate|].
  intros H. split; [by apply binop_same_inv|done].
Qed.

Lemma py_min_least (a : array) m :
  py_min a = Ok m -> m ∈ a /\ Forall (fun x => m <= x) a.
Proof.
  destruct a as [|x rest]; simpl; [discriminate|]. intros [= <-].
  revert x. induction rest as [|y rest IH]; intros x; simpl.
  - split; [left | constructor; [apply Qle_refl | constructor]].
  - destruct (Qltb y x) eqn:Hyx.
    + destruct (IH y) as [Hin Hall]. apply Qltb_lt in Hyx.
      inversion Hall as [|? ? Hy Hrest]; subst. split.
      * apply list_elem_of_In. right. by apply list_elem_of_In.
      * constructor; [|done]. apply Qlt_le_weak. eapply Qle_lt_trans; eauto.
    + destruct (IH x) as [Hin Hall]. apply Qltb_nlt, Qnot_lt_le in Hyx.
      inversion Hall as [|? ? Hx Hrest]; subst. split.
      * apply list_elem_of_In in Hin as [<-|Hin]; [left|].
        right. right. by apply list_elem_of_In.
      * constructor; [done|]. constructor; [|done].
        eapply Qle_trans; eauto.
Qed.

Ltac same_shape :=
  repeat (rewrite length_zip_with || rewrite length_fmap); lia.

End NumericFacts.

(** ** The van Leer limiter and the CFL ratio *)

Module VanLeerFacts.
Import Numeric NumericFacts VanLeerConvectionTerm.


(** Opposite signs, twice; then both gradients positive, and both
    negative. *)
Example getGradient_four :
  getGradient [1; -1; 2; -2] [3; 2; 1; -1] = Ok [0; 0; 1; -1].
Proof. reflexivity. Qed.




Lemma get_CFL_Ok self self' c :
  get_CFL self = (Ok c, self') -> CFL self = Some c /\ self' = self.
Proof.
  unfold get_CFL. intros H. step H.
  destruct (CFL self); [|discriminate]. by injection H as -> ->.
Qed.

Section CFL.

Variable parent :
  Term -> CellVariable -> list nat -> list nat -> outcome (array * array).

Lemma getOldAdjacentValues_CFL self self' oldArray id1 id2 r :
  getOldAdjacentValues parent oldArray id1 id2 self = (Ok r, self') ->
  exists faceCoeff vol1 vol2 cfl1 cfl2 cfl,
    take (coeff self) (getInteriorFaceIDs (mesh self)) = Ok faceCoeff /\
    take (getCellVolumes (mesh self)) id1 = Ok vol1 /\
    take (getCellVolumes (mesh self)) id2 = Ok vol2 /\
    divide (times_scalar (absolute faceCoeff) (dt self)) vol1 = Ok cfl1 /\
    divide (times_scalar (absolute faceCoeff) (dt self)) vol2 = Ok cfl2 /\
    maximum cfl2 cfl1 = Ok cfl /\
    self' = set_CFL cfl self.
Proof.
  intros H. unfold getOldAdjacentValues in H.
  step H. step H. destruct a as [oldArray1 oldArray2].
  do 19 step H.
  match goal with
  | E : get_CFL _ = _ |- _ => apply get_CFL_Ok in E as [Hstored ->]
  end.
  simpl in Hstored. injection Hstored as <-.
  do 9 step H. injection H as _ <-.
  eexists _, _, _, _, _, _. repeat split; eauto.
Qed.

Lemma no_zero_divisor (a : array) :
  Forall (fun c => ~ c == 0) a -> existsb Qzerob a = false.
Proof.
  induction 1 as [|c a Hc _ IH]; simpl; [done|].
  rewrite IH, orb_false_r. unfold Qzerob.
  apply not_true_iff_false. by rewrite Qeq_bool_iff.
Qed.

Lemma getFigureOfMerit_least self cfl :
  CFL self = Some cfl -> cfl <> [] -> Forall (fun c => ~ c == 0) cfl ->
  exists m,
    getFigureOfMerit self = (Ok m, self) /\
    m ∈ (Qdiv (2 # 10) <$> cfl) /\
    Forall (fun x => m <= x) (Qdiv (2 # 10) <$> cfl).
Proof.
  intros HCFL Hne Hnz.
  unfold getFigureOfMerit, get_CFL, bind, get, lift, scalar_divide.
  rewrite HCFL. unfold ret. rewrite (no_zero_divisor _ Hnz).
  destruct (py_min (Qdiv (2 # 10) <$> cfl)) as [m|e] eqn:Hmin.
  - exists m. split; [done|]. by apply py_min_least.
  - destruct cfl; [done|discriminate].
Qed.

(** C2: when [getOldAdjacentValues] has run, the stored CFL array holds,
    for each interior face, the larger of [|coeff| * dt / vol2] and
    [|coeff| * dt / vol1] over the two adjacent cells; [getFigureOfMerit]
    then returns the least of [0.2 / CFL] over the interior faces, which is
    2 when the CFL ratio is 0.1 on every face. *)
Theorem CFL_figure_of_merit self self' oldArray id1 id2 r :
  getOldAdjacentValues parent oldArray id1 id2 self = (Ok r, self') ->
  length id1 = length (getInteriorFaceIDs (mesh self)) ->
  length id2 = length (getInteriorFaceIDs (mesh self)) ->
  exists cfl,
    CFL self' = Some cfl /\
    length cfl = length (getInteriorFaceIDs (mesh self)) /\
    (forall i f c1 c2,
        getInteriorFaceIDs (mesh self) !! i = Some f ->
        id1 !! i = Some c1 -> id2 !! i = Some c2 ->
        exists k v1 v2,
          coeff self !! f = Some k /\
          getCellVolumes (mesh self) !! c1 = Some v1 /\
          getCellVolumes (mesh self) !! c2 = Some v2 /\
          cfl !! i = Some (Qmax (Qabs k * dt self / v2)
                                (Qabs k * dt self / v1))) /\
    (cfl <> [] -> Forall (fun c => ~ c == 0) cfl ->
     exists m,
       getFigureOfMerit self' = (Ok m, self') /\
       m ∈ (Qdiv (2 # 10) <$> cfl) /\
       Forall (fun x => m <= x) (Qdiv (2 # 10) <$> cfl)) /\
    (cfl <> [] -> Forall (fun c => c == 1 # 10) cfl ->
     exists m, getFigureOfMerit self' = (Ok m, self') /\ m == 2).
Proof.
  intros Hrun Hid1 Hid2.
  apply getOldAdjacentValues_CFL in Hrun
    as (faceCoeff & vol1 & vol2 & cfl1 & cfl2 & cfl
        & HfaceCoeff & Hvol1 & Hvol2 & Hcfl1 & Hcfl2 & Hcfl & ->).
  pose proof (take_length _ _ _ HfaceCoeff) as Lc.
  pose proof (take_length _ _ _ Hvol1) as L1.
  pose proof (take_length _ _ _ Hvol2) as L2.
  unfold times_scalar, absolute in *.
  apply divide_same in Hcfl1 as [-> _]; [|same_shape].
  apply divide_same in Hcfl2 as [-> _]; [|same_shape].
  apply binop_same_inv in Hcfl as ->; [|same_shape].
  eexists. split; [reflexivity|]. split; [same_shape|].
  split; [|split].
  - intros i f c1 c2 Hf Hc1 Hc2.
    pose proof (take_lookup _ _ _ _ _ HfaceCoeff Hf) as Hk.
    pose proof (take_lookup _ _ _ _ _ Hvol1 Hc1) as Hv1.
    pose proof (take_lookup _ _ _ _ _ Hvol2 Hc2) as Hv2.
    apply lookup_lt_Some in Hf, Hc1, Hc2.
    destruct (lookup_lt_is_Some_2 faceCoeff i) as [k Hk']; [lia|].
    destruct (lookup_lt_is_Some_2 vol1 i) as [v1 Hv1']; [lia|].
    destruct (lookup_lt_is_Some_2 vol2 i) as [v2 Hv2']; [lia|].
    exists k, v1, v2. simpl. rewrite <- Hk, <- Hv1, <- Hv2.
    repeat split; try done.
    repeat (rewrite lookup_zip_with || rewrite list_lookup_fmap).
    by rewrite Hk', Hv1', Hv2'.
  - intros Hne Hnz. by apply getFigureOfMerit_least.
  - intros Hne Huni.
    destruct (getFigureOfMerit_least
                (set_CFL (zip_with Qmax
                   (zip_with Qdiv ((fun x => x * dt self) <$> (Qabs <$> faceCoeff)) vol2)
                   (zip_with Qdiv ((fun x => x * dt self) <$> (Qabs <$> faceCoeff)) vol1))
                   self) _ eq_refl Hne) as (m & Hm & Hin & _).
    { eapply Forall_impl; [exact Huni|]. intros c Hc Hz.
      rewrite Hc in Hz. discriminate. }
    exists m. split; [done|].
    apply list_elem_of_fmap in Hin as (c & -> & Hin).
    rewrite Forall_forall in Huni. rewrite (Huni c Hin). reflexivity.
Qed.

End CFL.

Lemma CFL_figure_of_merit_witness :
  exists cfl,
    CFL run10.2 = Some cfl /\
    length cfl = length (getInteriorFaceIDs (mesh term10)) /\
    (forall i f c1 c2,
        getInteriorFaceIDs (mesh term10) !! i = Some f ->
        seq 0 9 !! i = Some c1 -> seq 1 9 !! i = Some c2 ->
        exists k v1 v2,
          coeff term10 !! f = Some k /\
          getCellVolumes (mesh term10) !! c1 = Some v1 /\
          getCellVolumes (mesh term10) !! c2 = Some v2 /\
          cfl !! i = Some (Qmax (Qabs k * dt term10 / v2)
                                (Qabs k * dt term10 / v1))) /\
    (cfl <> [] -> Forall (fun c => ~ c == 0) cfl ->
     exists m,
       getFigureOfMerit run10.2 = (Ok m, run10.2) /\
       m ∈ (Qdiv (2 # 10) <$> cfl) /\
       Forall (fun x => m <= x) (Qdiv (2 # 10) <$> cfl)) /\
    (cfl <> [] -> Forall (fun c => c == 1 # 10) cfl ->
     exists m, getFigureOfMerit run10.2 = (Ok m, run10.2) /\ m == 2).
Proof.
  apply (CFL_figure_of_merit adjacent_values term10 run10.2 ramp10
           (seq 0 9) (seq 1 9) values10).
  - vm_compute. reflexivity.
  - reflexivity.
  - reflexivity.
Defined.

(** On that mesh the CFL ratio is 0.1 on each of the nine interior faces
    and the figure of merit evaluates to 2. *)
Example grid10_CFL : CFL run10.2 = Some (replicate 9 (1 # 10)).
Proof. vm_compute. reflexivity. Qed.

Example grid10_figure_of_merit :
  exists m, (getFigureOfMerit run10.2).1 = Ok m /\ m == 2.
Proof. eexists. split; [vm_compute; reflexivity | reflexivity]. Qed.

(** *** The limiter and the corrected values *)


Lemma Qabs_cases (x : Q) :
  (0 <= x /\ Qabs x == x) \/ (x <= 0 /\ Qabs x == - x).
Proof.
  destruct (Qlt_le_dec x 0) as [H|H]; [right|left]; split.
  - by apply Qlt_le_weak.
  - apply Qabs_neg. by apply Qlt_le_weak.
  - done.
  - by apply Qabs_pos.
Qed.











Ltac shapes :=
  unfold times_scalar, absolute, scalar_times, negative in *;
  repeat (rewrite length_zip_with || rewrite length_fmap); lia.

Section Corrections.
Variable parent :
  Term -> CellVariable -> list nat -> list nat -> outcome (array * array).








Lemma binop_nil {A B C} (f : A -> B -> C) (b : list B) r :
  binop f [] b = Ok r -> r = [].
Proof.
  unfold binop. intros H. apply obind_Ok in H as (n & _ & [= <-]). done.
Qed.

(** X5: on a mesh with no interior face [getOldAdjacentValues], when it
    returns, leaves an empty CFL array, and [getFigureOfMerit] then raises
    the [ValueError] of [min] on an empty sequence, leaving the term as it
    was. *)
Theorem no_interior_faces self self' oldArray id1 id2 r :
  getInteriorFaceIDs (mesh self) = [] ->
  getOldAdjacentValues parent oldArray id1 id2 self = (Ok r, self') ->
  CFL self' = Some [] /\
  getFigureOfMerit self'
  = (Raise (ValueError "min() arg is an empty sequence"), self').
Proof.
  intros Hnone Hrun.
  apply getOldAdjacentValues_CFL in Hrun
    as (faceCoeff & vol1 & vol2 & cfl1 & cfl2 & cfl
        & HfaceCoeff & Hvol1 & Hvol2 & Hcfl1 & Hcfl2 & Hcfl & ->).
  rewrite Hnone in HfaceCoeff. injection HfaceCoeff as <-.
  unfold divide in Hcfl1, Hcfl2.
  destruct (existsb Qzerob vol1); [discriminate|].
  destruct (existsb Qzerob vol2); [discriminate|].
  apply binop_nil in Hcfl1 as ->. apply binop_nil in Hcfl2 as ->.
  apply binop_nil in Hcfl as ->. done.
Qed.

Lemma take_Forall {A} (P : A -> Prop) (a : list A) ids xs :
  Forall P a -> take a ids = Ok xs -> Forall P xs.
Proof.
  intros Ha. revert xs. induction ids as [|i ids IH]; intros xs; simpl.
  - intros [= <-]. constructor.
  - destruct (a !! i) as [x|] eqn:Hx; [|discriminate].
    intros H. apply obind_Ok in H as (ys & Hys & [= <-]).
    constructor; [|by apply IH].
    rewrite Forall_lookup in Ha. by apply (Ha i).
Qed.

Lemma Forall_zip_with_both {A B C} (P : A -> Prop) (Q : B -> Prop) (R : C -> Prop)
    (f : A -> B -> C) xs ys :
  (forall x y, P x -> Q y -> R (f x y)) ->
  Forall P xs -> Forall Q ys -> Forall R (zip_with f xs ys).
Proof.
  intros Hf Hxs. revert ys. induction Hxs as [|x xs Hx _ IH]; intros ys Hys;
    [constructor|].
  destruct Hys as [|y ys Hy Hys]; simpl; constructor; auto.
Qed.

Lemma ratio_positive x v : 0 < x -> 0 < v -> 0 < x / v.
Proof.
  intros Hx Hv. unfold Qdiv. apply Qmult_lt_0_compat; [done|].
  by apply Qinv_lt_0_compat.
Qed.

(** X6: with positive cell volumes, a positive [dt], no zero face
    coefficient and at least one interior face, every CFL ratio
    [getOldAdjacentValues] stores is positive and [getFigureOfMerit] returns
    a positive number without changing the term. *)
Theorem figure_of_merit_positive self self' oldArray id1 id2 r :
  getOldAdjacentValues parent oldArray id1 id2 self = (Ok r, self') ->
  length id1 = length (getInteriorFaceIDs (mesh self)) ->
  length id2 = length (getInteriorFaceIDs (mesh self)) ->
  getInteriorFaceIDs (mesh self) <> [] ->
  Forall (fun v => 0 < v) (getCellVolumes (mesh self)) ->
  Forall (fun k => ~ k == 0) (coeff self) ->
  0 < dt self ->
  exists cfl m,
    CFL self' = Some cfl /\ Forall (fun c => 0 < c) cfl /\
    getFigureOfMerit self' = (Ok m, self') /\ 0 < m.
Proof.
  intros Hrun Hid1 Hid2 Hsome Hvol Hcoeff Hdt.
  apply getOldAdjacentValues_CFL in Hrun
    as (faceCoeff & vol1 & vol2 & cfl1 & cfl2 & cfl
        & HfaceCoeff & Hvol1 & Hvol2 & Hcfl1 & Hcfl2 & Hcfl & ->).
  pose proof (take_length _ _ _ HfaceCoeff) as Lc.
  pose proof (take_length _ _ _ Hvol1) as L1.
  pose proof (take_length _ _ _ Hvol2) as L2.
  pose proof (take_Forall _ _ _ _ Hcoeff HfaceCoeff) as Pc.
  pose proof (take_Forall _ _ _ _ Hvol Hvol1) as P1.
  pose proof (take_Forall _ _ _ _ Hvol Hvol2) as P2.
  assert (Forall (fun x => 0 < x) (times_scalar (absolute faceCoeff) (dt self)))
    as Pi.
  { unfold times_scalar, absolute. rewrite <- list_fmap_compose.
    apply Forall_fmap. eapply Forall_impl; [exact Pc|]. intros k Hk. simpl.
    apply Qmult_lt_0_compat; [|done].
    destruct (Q_dec k 0) as [[Hlt|Hgt]|Heq]; [| |done];
      destruct (Qabs_cases k) as [[? E]|[? E]]; rewrite E; lra. }
  apply divide_same in Hcfl1 as [-> _]; [|shapes].
  apply divide_same in Hcfl2 as [-> _]; [|shapes].
  apply binop_same_inv in Hcfl as ->; [|shapes].
  match goal with
  | |- context [set_CFL ?cfl self] =>
      assert (Forall (fun c => 0 < c) cfl) as Pcfl
  end.
  { apply (Forall_zip_with_both (fun c => 0 < c) (fun c => 0 < c)).
    - intros x y Hx Hy. apply Q.max_lt_iff. by left.
    - apply (Forall_zip_with_both (fun c => 0 < c) (fun c => 0 < c));
        auto using ratio_positive.
    - apply (Forall_zip_with_both (fun c => 0 < c) (fun c => 0 < c));
        auto using ratio_positive. }
  match goal with
  | |- context [set_CFL ?cfl self] =>
      destruct (getFigureOfMerit_least (set_CFL cfl self) cfl eq_refl)
        as (m & Hm & Hin & _)
  end.
  { intros Hnil. apply (f_equal length) in Hnil. revert Hnil.
    destruct (getInteriorFaceIDs (mesh self)); [done|]. simpl in *. shapes. }
  { eapply Forall_impl; [exact Pcfl|]. simpl. intros c Hc Hz. lra. }
  eexists _, m. split; [reflexivity|]. split; [done|]. split; [done|].
  apply list_elem_of_fmap in Hin as (c & -> & Hin).
  rewrite Forall_forall in Pcfl. apply ratio_positive; [done|]. by apply Pcfl.
Qed.

End Corrections.





Lemma no_interior_faces_witness :
  CFL run1.2 = Some [] /\
  getFigureOfMerit run1.2
  = (Raise (ValueError "min() arg is an empty sequence"), run1.2).
Proof.
  apply (no_interior_faces adjacent_values term1 run1.2 point1 [] [] ([], [])).
  - reflexivity.
  - vm_compute. reflexivity.
Defined.

Lemma figure_of_merit_positive_witness :
  exists cfl m,
    CFL run10.2 = Some cfl /\ Forall (fun c => 0 < c) cfl /\
    getFigureOfMerit run10.2 = (Ok m, run10.2) /\ 0 < m.
Proof.
  apply (figure_of_merit_positive adjacent_values term10 run10.2 ramp10
           (seq 0 9) (seq 1 9) values10).
  - vm_compute. reflexivity.
  - reflexivity.
  - reflexivity.
  - discriminate.
  - repeat constructor.
  - simpl. repeat (constructor; [discriminate|]). constructor.
  - reflexivity.
Defined.

(** On the ramp the gradient of each cell is the difference of the values
    next to a face: the limited gradient is that difference, and the value
    of the first cell is corrected by [0.5 * 1 * (1 - 0.1)]. *)
Example ramp10_corrected :
  values10.1 !! 0%nat = Some (0 + (1 # 2) * limited 1 ((1 - 0) / 1)
                                  * (1 - Qabs 1 * (1 # 10)) / 1).
Proof. vm_compute. reflexivity. Qed.

End VanLeerFacts.

(** ** The convection coefficient of the surfactant equation *)

Module SurfactantFacts.
Import Numeric NumericFacts SurfactantEquation.

Lemma lookup_concat_replicate {A} (a : list A) k p :
  (p < k * length a)%nat ->
  concat (replicate k a) !! p = a !! (p mod length a)%nat.
Proof.
  revert p. induction k as [|k IH]; intros p Hp; [lia|]. simpl.
  destruct (decide (p < length a)%nat) as [Hlt|Hge].
  - rewrite lookup_app_l by done. by rewrite Nat.mod_small.
  - rewrite lookup_app_r by lia. rewrite IH by lia. f_equal.
    replace p with ((p - length a) + 1 * length a)%nat at 2 by lia.
    by rewrite Nat.Div0.mod_add.
Qed.

Lemma clamped_positive (mags : array) :
  Forall (fun m => 0 < m)
    ((fun m => choose (Qltb m (1 # 10000000000)) (1 # 10000000000) m) <$> mags).
Proof.
  apply Forall_fmap, Forall_true. intros m. simpl. unfold choose.
  destruct (Qltb m (1 # 10000000000)) eqn:H; [reflexivity|].
  apply Qltb_nlt in H. lra.
Qed.

Lemma positive_no_zero (a : array) :
  Forall (fun m => 0 < m) a -> existsb Qzerob a = false.
Proof.
  induction 1 as [|m a Hm _ IH]; simpl; [done|].
  rewrite IH, orb_false_r. unfold Qzerob. apply not_true_iff_false.
  rewrite Qeq_bool_iff. lra.
Qed.

Lemma resize_lookup (a : array) rows cols r i j row :
  a <> [] -> (0 < cols)%nat ->
  resize a rows cols = Ok r -> r !! i = Some row -> (j < cols)%nat ->
  row !! j = a !! ((i * cols + j) mod length a)%nat.
Proof.
  intros Ha Hcols. unfold resize. destruct a as [|x a']; [done|].
  destruct (decide (rows * cols = 0)%nat); [discriminate|].
  intros [= <-] Hrow Hj.
  set (a := x :: a') in *.
  assert (0 < length a)%nat as Hlen by (simpl; lia).
  set (flat := firstn (rows * cols) (concat (replicate (rows * cols) a))) in *.
  assert (length flat = (rows * cols)%nat) as Hflat.
  { unfold flat. rewrite length_take, length_concat.
    rewrite fmap_replicate, sum_list_replicate. nia. }
  assert (i < rows)%nat as Hi.
  { apply lookup_lt_Some in Hrow.
    by rewrite length_reshape, length_replicate in Hrow. }
  rewrite sublist_lookup_reshape in Hrow by done.
  apply sublist_lookup_Some' in Hrow as [-> Hle].
  rewrite lookup_take_lt by done. rewrite lookup_drop.
  unfold flat. rewrite lookup_take_lt by nia.
  apply lookup_concat_replicate. nia.
Qed.


Lemma resize_length (a : array) rows cols r :
  resize a rows cols = Ok r ->
  length r = rows /\ (a = [] -> r = replicate rows (replicate cols 0)).
Proof.
  unfold resize. destruct a as [|x a'].
  - intros [= <-]. by rewrite length_replicate.
  - destruct (decide (rows * cols = 0)%nat); [discriminate|].
    intros [= <-]. by rewrite length_reshape, length_replicate.
Qed.

Lemma normal_rows (faceGrad : list array) (mags : array) d :
  faceGrad <> [] -> Forall (fun row => length row = d) faceGrad ->
  length mags = length faceGrad ->
  shape (zip_with (fun row m => (fun x => x / m) <$> row) faceGrad mags)
  = (length faceGrad, d).
Proof.
  intros Hne Hrows Hlen. unfold shape. rewrite length_zip_with.
  f_equal; [lia|].
  destruct faceGrad as [|row rest]; [done|]. destruct mags as [|m mags];
    [discriminate|]. simpl. rewrite length_fmap.
  by inversion Hrows.
Qed.

(** X7: on a face gradient of [n > 0] rows of [d > 0] components with one
    magnitude per row, [calcValue] never divides by zero, whatever the
    magnitudes are, and returns an array of the same shape.  Its entry
    [(i, j)] is zero when the face value array is empty; otherwise it is
    decided by entry [(i * d + j) mod length] of the face value array, as
    [Numeric.resize] lays the copies out: the gradient component divided by
    the magnitude, or by [1e-10] when the magnitude is smaller, where that
    face value is positive, and zero where it is not.  With one component
    per face and one face value per face that entry is the face's own. *)
Theorem convection_coefficient_entries (faceGrad : list array)
    (mags faceValue : array) (d : nat) :
  faceGrad <> [] -> (0 < d)%nat ->
  Forall (fun row => length row = d) faceGrad ->
  length mags = length faceGrad ->
  exists value,
    calcValue faceGrad mags faceValue = Ok value /\
    length value = length faceGrad /\
    Forall (fun row => length row = d) value /\
    forall i j row m x,
      faceGrad !! i = Some row -> mags !! i = Some m -> row !! j = Some x ->
      exists vrow v,
        value !! i = Some vrow /\ vrow !! j = Some v /\
        (faceValue = [] -> v = 0) /\
        forall f,
          faceValue !! ((i * d + j) mod length faceValue)%nat = Some f ->
          (0 < f ->
           v = x / (if Qltb m (1 # 10000000000) then 1 # 10000000000 else m)) /\
          (~ 0 < f -> v = 0).
Proof.
  intros Hne Hd Hrows Hlen. unfold calcValue, divide_rows.
  rewrite (positive_no_zero _ (clamped_positive mags)).
  rewrite binop_same by (rewrite length_fmap; lia). cbn [obind].
  rewrite (normal_rows _ _ d) by (rewrite ?length_fmap; done). cbn [fst snd].
  destruct (resize faceValue (length faceGrad) d) as [fv|e] eqn:Hfv.
  2:{ unfold resize in Hfv. destruct faceValue; [discriminate|].
      destruct (decide (length faceGrad * d = 0)%nat) as [H0|]; [|discriminate].
      destruct faceGrad; [done|]. simpl in H0. lia. }
  cbn [obind]. destruct (resize_length _ _ _ _ Hfv) as [Lfv Hzero].
  unfold where_positive.
  rewrite binop_same by (rewrite length_zip_with, length_fmap; lia).
  eexists. split; [reflexivity|].
  split; [rewrite !length_zip_with, length_fmap; lia|].
  assert (Forall (fun row => length row = d) fv) as Hfvrows.
  { unfold resize in Hfv. destruct faceValue as [|x0 a'].
    - injection Hfv as <-. apply Forall_replicate. by rewrite length_replicate.
    - destruct (decide (length faceGrad * d = 0)%nat); [discriminate|].
      injection Hfv as <-. apply Forall_forall. intros row Hrow.
      apply list_elem_of_lookup in Hrow as [i Hi].
      rewrite sublist_lookup_reshape in Hi.
      + by apply sublist_lookup_length in Hi.
      + done.
      + rewrite length_take, length_concat, fmap_replicate, sum_list_replicate.
        simpl. nia. }
  split.
  { apply Forall_forall. intros vrow Hv.
    apply list_elem_of_lookup in Hv as [i Hi].
    rewrite !lookup_zip_with, list_lookup_fmap in Hi.
    destruct (fv !! i) as [frow|] eqn:Hf; [|done].
    destruct (faceGrad !! i) as [row|] eqn:Hrow; [|done].
    destruct (mags !! i) as [m|] eqn:Hm; [|done].
    simpl in Hi. injection Hi as <-.
    rewrite length_zip_with, length_fmap.
    rewrite Forall_forall in Hrows, Hfvrows.
    rewrite (Hrows row), (Hfvrows frow); [lia|..];
      by eapply list_elem_of_lookup_2. }
  intros i j row m x Hrow Hm Hx.
  assert (i < length fv)%nat as Hi by (apply lookup_lt_Some in Hrow; lia).
  destruct (lookup_lt_is_Some_2 fv i Hi) as [frow Hfrow].
  assert (length row = d) as Lrow.
  { rewrite Forall_forall in Hrows. apply Hrows.
    by eapply list_elem_of_lookup_2. }
  assert (length frow = d) as Lfrow.
  { rewrite Forall_forall in Hfvrows. apply Hfvrows.
    by eapply list_elem_of_lookup_2. }
  assert (j < d)%nat as Hj by (apply lookup_lt_Some in Hx; lia).
  destruct (lookup_lt_is_Some_2 frow j) as [c Hc]; [lia|].
  eexists _, _. split.
  { rewrite !lookup_zip_with, list_lookup_fmap, Hfrow, Hrow, Hm. reflexivity. }
  split.
  { rewrite lookup_zip_with, list_lookup_fmap, Hc, Hx. reflexivity. }
  split.
  - intros ->. rewrite (Hzero eq_refl) in Hfrow.
    apply lookup_replicate in Hfrow as [-> _].
    apply lookup_replicate in Hc as [-> _]. done.
  - intros f Hf.
    assert (faceValue <> []) as Hfne by (intros ->; done).
    rewrite <- (resize_lookup _ _ _ _ _ _ _ Hfne Hd Hfv Hfrow Hj), Hc in Hf.
    injection Hf as <-. unfold choose. split; intros H.
    + apply Qltb_lt in H. by rewrite H.
    + apply Qltb_nlt in H. by rewrite H.
Qed.


Lemma convection_coefficient_entries_witness :
  exists value,
    calcValue [[1; 1]; [1; 1]] [1; 1] [1; -1] = Ok value /\
    length value = length [[1; 1]; [1; 1]] /\
    Forall (fun row => length row = 2%nat) value /\
    forall i j row m x,
      [[1; 1]; [1; 1]] !! i = Some row -> [1; 1] !! i = Some m ->
      row !! j = Some x ->
      exists vrow v,
        value !! i = Some vrow /\ vrow !! j = Some v /\
        ([1; -1] = [] -> v = 0) /\
        forall f,
          [1; -1] !! ((i * 2 + j) mod 2)%nat = Some f ->
          (0 < f ->
           v = x / (if Qltb m (1 # 10000000000) then 1 # 10000000000 else m)) /\
          (~ 0 < f -> v = 0).
Proof.
  apply (convection_coefficient_entries [[1; 1]; [1; 1]] [1; 1] [1; -1] 2%nat).
  - discriminate.
  - lia.
  - repeat constructor.
  - reflexivity.
Defined.

(** In two dimensions the copies of the face values do not line up with
    the faces: with a positive value on the first face and a negative one
    on the second, both faces keep their first component and lose their
    second. *)
Example two_faces_two_components :
  calcValue [[1; 1]; [1; 1]] [1; 1] [1; -1] = Ok [[1 / 1; 0]; [1 / 1; 0]].
Proof. reflexivity. Qed.

(** A gradient of magnitude zero is divided by [1e-10]. *)
Example flat_distance :
  calcValue [[0]] [0] [1] = Ok [[0 / (1 # 10000000000)]].
Proof. reflexivity. Qed.

End SurfactantFacts.

(** ** Terms *)

Module TermFacts.
Import Term.

(** *** Facts about composition *)

Lemma alloc_run (o : Obj) (w : World) :
  alloc o w = (Ok (length (heap w)), set_heap (heap w ++ [o]) w).
Proof. reflexivity. Qed.

Lemma lookup_fresh (w : World) (o : Obj) :
  heap w !! length (heap w) = None /\
  (heap w ++ [o]) !! length (heap w) = Some o /\
  forall l, l <> length (heap w) -> (heap w ++ [o]) !! l = heap w !! l.
Proof.
  split; [by apply lookup_ge_None_2|]. split.
  - rewrite lookup_app_r by lia. by rewrite Nat.sub_diag.
  - intros l Hl. destruct (decide (l < length (heap w))%nat) as [Hlt|Hge].
    + by rewrite lookup_app_l.
    + rewrite (lookup_ge_None_2 (heap w)) by lia.
      apply lookup_ge_None_2. rewrite length_app. simpl. lia.
Qed.

Lemma new_run (class : string) (c : coefficient) (v : option Var) (w : World) :
  class <> "Term" ->
  new class c v w
  = (Ok (length (heap w)), set_heap (heap w ++ [leaf_node class c v]) w).
Proof.
  intros Hclass. unfold new, __init__, bind, lift.
  rewrite decide_False by done. apply alloc_run.
Qed.


Lemma is_zero_neg (n : number) :
  is_zero_number (ONum (neg_number n)) = is_zero_number (ONum n).
Proof.
  destruct n as [z|q]; simpl.
  - destruct (Z.eqb_spec z 0) as [->|Hz]; [done|].
    apply Z.eqb_neq. lia.
  - apply eq_true_iff_eq. rewrite !Qeq_bool_iff. split; intros H.
    + rewrite <- (Qopp_involutive q), H. reflexivity.
    + rewrite H. reflexivity.
Qed.



(** [__Term(coeff=1.) + 10.] and [__Term(coeff=1.) == 0] of the doctests. *)
Example add_ten :
  (__add__ BinaryTerm_new 0 (ONum (PyFloat 10)) world0).1 = Ok 2%nat.
Proof. reflexivity. Qed.

Example equate_to_zero :
  (__eq__ BinaryTerm_new __neg__ 0 (ONum (PyInt 0)) world0).1 = Ok 0%nat.
Proof. reflexivity. Qed.

(** *** Facts about building and solving *)

Lemma deref_run (self : nat) (o : Obj) (w : World) :
  heap w !! self = Some o -> deref self w = (Ok o, w).
Proof. intros H. unfold deref, bind, get. by rewrite H. Qed.

Lemma deref_Ok (self : nat) (o : Obj) (w w' : World) :
  deref self w = (Ok o, w') -> heap w !! self = Some o /\ w' = w.
Proof.
  unfold deref, bind, get. destruct (heap w !! self); [|discriminate].
  by intros [= -> ->].
Qed.

Lemma update_Ok (self : nat) (f : Obj -> Obj) (w w' : World) u :
  update self f w = (Ok u, w') ->
  exists o, heap w !! self = Some o /\
            w' = set_heap (<[self := f o]> (heap w)) w.
Proof.
  unfold update, bind, get. destruct (heap w !! self) as [o|]; [|discriminate].
  intros [= <-]. eauto.
Qed.

Lemma reset_all_run (bcs : list nat) (w : World) :
  exists w',
    reset_all bcs w = (Ok tt, w') /\
    heap w' = heap w /\ values w' = values w /\
    display_matrix w' = display_matrix w /\ viewer w' = viewer w /\
    log w' = log w ++ (ResetBoundaryConditionApplied <$> bcs).
Proof.
  revert w. induction bcs as [|bc bcs IH]; intros w; simpl.
  - exists w. by rewrite app_nil_r.
  - unfold bind, emit, modify. simpl.
    destruct (IH (add_log [ResetBoundaryConditionApplied bc] w))
      as (w' & -> & Hh & Hv & Hd & Hw & Hl).
    exists w'. simpl in *. by rewrite Hl, <- app_assoc.
Qed.

(** Peel one step, naming what the known steps leave behind. *)
Ltac tstep_as H a s E :=
  apply bind_Ok in H as (a & s & E & H);
  lazymatch type of E with
  | lift _ _ = _ => apply lift_Ok in E as [E ->]
  | get _ = _ => apply get_Ok in E as [-> ->]
  | modify _ _ = _ => apply modify_Ok in E as ->
  | emit _ _ = _ => apply modify_Ok in E as ->
  | update _ _ _ = _ => apply update_Ok in E as (?o & ?Ho & ->)
  | deref _ _ = _ => apply deref_Ok in E as [E ->]
  | _ => idtac
  end.

Ltac tstep H :=
  let a := fresh "a" in
  let s := fresh "s" in
  let E := fresh "E" in
  tstep_as H a s E.

Section SolvingFacts.

Context {Solver : Type} `{!SolverInterface Solver}.
Variable subclass : string -> Subclass Solver.

Lemma checkVar_Ok o v w u w' :
  _checkVar subclass o v w = (Ok u, w') ->
  exists evs,
    call_verifyCoeffType subclass o v = Ok tt /\
    grows evs w w' /\ forallb is_setup evs = true.
Proof.
  unfold _checkVar. intros H. tstep H. apply lift_Ok in H as [H ->].
  destruct u, a. destruct (floats v).
  - injection E as <-. exists []. unfold grows. by rewrite app_nil_r.
  - apply modify_Ok in E as ->. by eexists [_].
Qed.

Lemma buildMatrix_unfold self var solver bcs dt :
  __buildMatrix subclass self var solver bcs dt
  = (o <~ deref self ;
     v <~ lift (_verifyVar o var) ;
     build_rest subclass self o v solver bcs dt).
Proof. reflexivity. Qed.

Section Stable.
Context (J : World -> Prop) (E : exn -> Prop).
Hypothesis HJ : stable J.
Hypothesis HE : foreign_ok E.

Lemma inv_emit e : e <> Solve -> inv J E (emit e).
Proof. intros He. apply inv_modify. intros w. by apply stable_log. Qed.

Lemma inv_foreign {A} (r : string + A) : inv J E (lift (foreign r)).
Proof.
  apply inv_lift. intros e. destruct r; simpl; [|discriminate].
  intros [= <-]. apply HE.
Qed.

Lemma inv_reset_all bcs : inv J E (reset_all bcs).
Proof.
  induction bcs as [|bc bcs IH]; simpl; [apply inv_ret|].
  apply inv_bind; [by apply inv_emit | done].
Qed.

Lemma inv_update_matrix self (m : Matrix) :
  inv J E (update self (fun o =>
             set_matrix (if _cacheMatrix o then Some m else None) o)).
Proof.
  intros w Hw. unfold update, bind, get.
  destruct (heap w !! self) as [o|] eqn:Ho; simpl.
  - by apply stable_matrix.
  - split; [done | apply HE].
Qed.

Lemma inv_update_RHSvector self (b : Vec) :
  inv J E (update self (fun o =>
             set_RHSvector (if _cacheRHSvector o then Some b else None) o)).
Proof.
  intros w Hw. unfold update, bind, get.
  destruct (heap w !! self) as [o|] eqn:Ho; simpl.
  - by apply stable_RHSvector.
  - split; [done | apply HE].
Qed.

Ltac inv_step :=
  lazymatch goal with
  | |- inv _ _ (bind _ _) => apply inv_bind; [|intros ?]
  | |- inv _ _ (ret _) => apply inv_ret
  | |- inv _ _ get => apply inv_get
  | |- inv _ _ (reset_all _) => apply inv_reset_all
  | |- inv _ _ (update _ (fun o => set_matrix _ o)) =>
      apply inv_update_matrix
  | |- inv _ _ (update _ (fun o => set_RHSvector _ o)) =>
      apply inv_update_RHSvector
  | |- inv _ _ (emit _) => apply inv_emit; discriminate
  | |- inv _ _ (modify (set_viewer _)) =>
      apply inv_modify; apply stable_viewer; exact HJ
  | |- inv _ _ (lift (foreign _)) => apply inv_foreign
  | |- inv _ _ (if ?c then _ else _) => destruct c
  | |- inv _ _ (let (_, _) := ?x in _) => destruct x
  | |- inv _ _ (match ?x with (_, _) => _ end) => destruct x
  end.

Ltac inv_steps := repeat inv_step.

Lemma inv_build_rest self o v solver bcs dt :
  inv J E (build_rest subclass self o v solver bcs dt).
Proof.
  unfold build_rest, _checkVar. inv_steps.
  - apply inv_lift. unfold call_verifyCoeffType.
    destruct (_verifyCoeffType (subclass (cls o))) as [f|]; [|discriminate].
    intros e He. destruct (f o v); [|discriminate].
    injection He as <-. apply HE.
  - apply inv_lift. destruct dt; [discriminate|].
    intros e [= <-]. apply HE.
  - apply inv_lift. unfold call_buildMatrix.
    destruct (_buildMatrix (subclass (cls o))) as [f|].
    + intros e He.
      match type of He with foreign ?r = _ => destruct r end;
        [|discriminate].
      injection He as <-. apply HE.
    + intros e [= <-]. apply HE.
Qed.

Lemma inv_buildMatrix self var solver bcs dt :
  (forall w o e, J w -> heap w !! self = Some o ->
                 _verifyVar o var = Raise e -> E e) ->
  inv J E (__buildMatrix subclass self var solver bcs dt).
Proof.
  intros Hvar w Hw. rewrite buildMatrix_unfold.
  destruct (heap w !! self) as [o|] eqn:Ho.
  - unfold bind at 1. rewrite (deref_run _ _ _ Ho).
    destruct (_verifyVar o var) as [v|e] eqn:Hv.
    + unfold bind at 1, lift at 1. by apply inv_build_rest.
    + unfold bind, lift. split; [done | eauto].
  - unfold bind at 1, deref, bind, get. rewrite Ho. simpl.
    split; [done | apply HE].
Qed.

Lemma inv_prepareLinearSystem self var solver bcs dt :
  (forall w o e, J w -> heap w !! self = Some o ->
                 _verifyVar o var = Raise e -> E e) ->
  inv J E (_prepareLinearSystem subclass self var solver bcs dt).
Proof.
  intros Hvar. unfold _prepareLinearSystem.
  apply inv_bind; [|intros o; by apply inv_buildMatrix].
  intros w Hw. unfold deref, bind, get.
  destruct (heap w !! self); simpl; [done | split; [done | apply HE]].
Qed.

Lemma inv_applyUnderRelaxation u s :
  inv J E (solver_applyUnderRelaxation u s).
Proof. unfold solver_applyUnderRelaxation. inv_steps. Qed.

Lemma inv_calcResidual rf s : inv J E (solver_calcResidual rf s).
Proof. unfold solver_calcResidual. inv_steps. Qed.

Lemma inv_calcResidualVector rf s : inv J E (solver_calcResidualVector rf s).
Proof. unfold solver_calcResidualVector. inv_steps. Qed.

Lemma inv_justResidualVector self var solver bcs dt u rf :
  (forall w o e, J w -> heap w !! self = Some o ->
                 _verifyVar o var = Raise e -> E e) ->
  inv J E (justResidualVector subclass self var solver bcs dt u rf).
Proof.
  intros Hvar. unfold justResidualVector.
  apply inv_bind; [by apply inv_prepareLinearSystem | intros s1].
  apply inv_bind; [apply inv_applyUnderRelaxation | intros s2].
  apply inv_bind; [apply inv_calcResidualVector | intros vec].
  apply inv_ret.
Qed.

Lemma inv_residualVectorAndNorm self var solver bcs dt u rf :
  (forall w o e, J w -> heap w !! self = Some o ->
                 _verifyVar o var = Raise e -> E e) ->
  inv J E (residualVectorAndNorm subclass self var solver bcs dt u rf).
Proof.
  intros Hvar. unfold residualVectorAndNorm.
  apply inv_bind; [by apply inv_prepareLinearSystem | intros s1].
  apply inv_bind; [apply inv_applyUnderRelaxation | intros s2].
  apply inv_bind; [apply inv_calcResidualVector | intros vec].
  apply inv_ret.
Qed.

(** The solve step is logged and writes the values of the variables. *)
Hypothesis HJsolve : forall w, J w -> J (add_log [Solve] w).
Hypothesis HJvalues : forall vals w, J w -> J (set_values vals w).

Lemma inv_solver_solve s : inv J E (solver_solve s).
Proof.
  unfold solver_solve.
  apply inv_bind; [apply inv_modify, HJsolve | intros ?].
  apply inv_bind; [apply inv_get | intros w].
  apply inv_bind; [apply inv_foreign | intros [s' vals]].
  apply inv_bind; [apply inv_modify, HJvalues | intros ?].
  apply inv_ret.
Qed.

Lemma inv_solve self var solver bcs dt :
  (forall w o e, J w -> heap w !! self = Some o ->
                 _verifyVar o var = Raise e -> E e) ->
  inv J E (solve subclass self var solver bcs dt).
Proof.
  intros Hvar. unfold solve.
  apply inv_bind; [by apply inv_prepareLinearSystem | intros s1].
  apply inv_solver_solve.
Qed.

Lemma inv_sweep self var solver bcs dt u rf :
  (forall w o e, J w -> heap w !! self = Some o ->
                 _verifyVar o var = Raise e -> E e) ->
  inv J E (sweep subclass self var solver bcs dt u rf).
Proof.
  intros Hvar. unfold sweep.
  apply inv_bind; [by apply inv_prepareLinearSystem | intros s1].
  apply inv_bind; [apply inv_applyUnderRelaxation | intros s2].
  apply inv_bind; [apply inv_calcResidual | intros res].
  apply inv_bind; [apply inv_solver_solve | intros s3].
  apply inv_ret.
Qed.

End Stable.

Lemma buildMatrix_Ok self var solver bcs dt w s w' :
  __buildMatrix subclass self var solver bcs dt w = (Ok s, w') ->
  exists o v q v' m b pre post,
    heap w !! self = Some o /\
    _verifyVar o var = Ok v /\
    float_dt dt = Ok q /\
    call_buildMatrix subclass o v (_getMatrixClass solver (getMesh v))
      (as_tuple bcs) q (values w) = Ok (v', m, b) /\
    s = _storeMatrix v' m b solver /\
    heap w' = <[self := cache o m b]> (heap w) /\
    values w' = values w /\
    log w' = log w ++ pre ++ [BuildMatrix self v q; StoreMatrix v' m b] ++ post /\
    forallb is_setup pre = true /\ forallb is_display post = true.
Proof.
  intros H. unfold __buildMatrix, build_rest in H.
  tstep_as H o s0 Ho. tstep_as H v s0 Hv. tstep_as H u0 s0 Hcheck.
  apply checkVar_Ok in Hcheck as (evs1 & Hcoeff & Hs0 & Hsetup1).
  destruct Hs0 as (Hh0 & Hv0 & Hd0 & Hl0).
  tstep_as H q s1 Hq. tstep_as H u1 s1 Hreset.
  destruct (reset_all_run (as_tuple bcs) s0)
    as (w2 & Hrun & Hh2 & Hv2 & Hd2 & _ & Hl2).
  rewrite Hrun in Hreset. injection Hreset as _ <-.
  tstep_as H w3 s2 Hget. tstep_as H u2 s2 Hviewer.
  assert (exists evs3, heap s2 = heap w2 /\ values s2 = values w2 /\
            log s2 = log w2 ++ evs3 /\ forallb is_setup evs3 = true)
    as (evs3 & Hh3 & Hv3 & Hl3 & Hsetup3).
  { destruct (display_matrix w2).
    - destruct (viewer w2).
      + injection Hviewer as _ <-. exists []. by rewrite app_nil_r.
      + tstep Hviewer. apply modify_Ok in Hviewer as ->. by exists [NewViewer].
    - injection Hviewer as _ <-. exists []. by rewrite app_nil_r. }
  clear Hviewer. tstep_as H u3 s3 Hemit. tstep_as H x s3 Hbuild.
  destruct x as [[v' m] b].
  apply bind_Ok in H as (u4 & s3 & Hstore & H).
  apply update_Ok in Hstore as (o' & Ho' & ->).
  simpl in Ho'. rewrite Hh3, Hh2, Hh0, Ho in Ho'. injection Ho' as <-.
  apply bind_Ok in H as (u4' & s3 & Hstore & H).
  apply update_Ok in Hstore as (o' & Ho' & ->).
  simpl in Ho'. rewrite Hh3, Hh2, Hh0 in Ho'.
  rewrite list_lookup_insert_eq in Ho' by (by eapply lookup_lt_Some).
  injection Ho' as <-.
  tstep_as H u5 s3 Hemit'. tstep_as H u6 s3 Hplot.
  assert (exists post, heap s3 = <[self := cache o m b]> (heap w) /\
            values s3 = values w /\
            log s3 = log s2 ++ [BuildMatrix self v q; StoreMatrix v' m b]
                       ++ post /\
            forallb is_display post = true)
    as (post & Hh4 & Hv4 & Hl4 & Hdisplay).
  { destruct (display_matrix w2).
    - tstep Hplot. apply modify_Ok in Hplot as ->. eexists [_; _]. simpl.
      rewrite Hh3, Hh2, Hh0, Hv3, Hv2, Hv0, <- !app_assoc.
      by rewrite list_insert_insert_eq.
    - injection Hplot as _ <-. exists []. simpl.
      rewrite Hh3, Hh2, Hh0, Hv3, Hv2, Hv0, <- !app_assoc.
      by rewrite list_insert_insert_eq. }
  injection H as <- <-.
  exists o, v, q, v', m, b,
    (evs1 ++ (ResetBoundaryConditionApplied <$> as_tuple bcs) ++ evs3), post.
  rewrite Hv2, Hv0 in Hbuild.
  repeat split; try done.
  - rewrite Hl4, Hl3, Hl2, Hl0, <- !app_assoc. done.
  - rewrite !forallb_app, Hsetup1, Hsetup3, andb_true_r. simpl.
    apply forallb_forall. intros e He.
    apply list_elem_of_In, list_elem_of_fmap in He as (bc & -> & _). done.
Qed.

Lemma prepareLinearSystem_Ok self var solver bcs dt w s w' :
  _prepareLinearSystem subclass self var solver bcs dt w = (Ok s, w') ->
  exists o v q v' m b pre post,
    heap w !! self = Some o /\
    _verifyVar o var = Ok v /\
    float_dt dt = Ok q /\
    s = _storeMatrix v' m b (getDefaultSolver subclass o solver) /\
    heap w' = <[self := cache o m b]> (heap w) /\
    values w' = values w /\
    log w' = log w ++ pre ++ [BuildMatrix self v q; StoreMatrix v' m b] ++ post /\
    forallb is_setup pre = true /\ forallb is_display post = true.
Proof.
  unfold _prepareLinearSystem. intros H. tstep_as H o s0 Ho.
  apply buildMatrix_Ok in H
    as (o' & v & q & v' & m & b & pre & post & Ho' & H).
  rewrite Ho in Ho'. injection Ho' as <-.
  exists o, v, q, v', m, b, pre, post. tauto.
Qed.

Lemma solver_solve_Ok s w s' w' :
  solver_solve s w = (Ok s', w') ->
  heap w' = heap w /\ log w' = log w ++ [Solve].
Proof.
  unfold solver_solve. intros H. do 3 tstep H. destruct a0 as [s1 vals].
  tstep H. by injection H as _ <-.
Qed.

Lemma foreign_Ok {A} (r : string + A) (a : A) : foreign r = Ok a -> r = inr a.
Proof. destruct r; simpl; [discriminate | by intros [= ->]]. Qed.

Lemma solver_applyUnderRelaxation_Ok u s w s' w' :
  solver_applyUnderRelaxation u s w = (Ok s', w') ->
  w' = add_log [ApplyUnderRelaxation u] w /\
  _applyUnderRelaxation u s = inr s'.
Proof.
  unfold solver_applyUnderRelaxation. intros H. tstep H.
  apply lift_Ok in H as [H ->]. by apply foreign_Ok in H.
Qed.

Lemma solver_calcResidual_Ok rf s w r w' :
  solver_calcResidual rf s w = (Ok r, w') -> w' = add_log [CalcResidual] w.
Proof.
  unfold solver_calcResidual. intros H. do 2 tstep H.
  by apply lift_Ok in H as [_ ->].
Qed.

Lemma solver_calcResidualVector_Ok rf s w r w' :
  solver_calcResidualVector rf s w = (Ok r, w') ->
  w' = add_log [CalcResidualVector] w /\
  _calcResidualVector rf s (values w) = inr r.
Proof.
  unfold solver_calcResidualVector. intros H. do 2 tstep H.
  apply lift_Ok in H as [H ->]. by apply foreign_Ok in H.
Qed.

Lemma run_Ok e self var solver bcs dt w u w' :
  run subclass e self var solver bcs dt w = (Ok u, w') ->
  exists o v q v' m b pre post,
    heap w !! self = Some o /\
    _verifyVar o var = Ok v /\
    heap w' = <[self := cache o m b]> (heap w) /\
    log w' = log w ++ pre ++ [BuildMatrix self v q; StoreMatrix v' m b]
               ++ post ++ after_build e /\
    forallb is_setup pre = true /\ forallb is_display post = true.
Proof.
  intros H.
  assert (exists s1 w1,
    _prepareLinearSystem subclass self var solver bcs dt w = (Ok s1, w1) /\
    heap w' = heap w1 /\ log w' = log w1 ++ after_build e)
    as (s1 & w1 & Hprep & Hheap & Hlog).
  { destruct u, e as [|ur rf|ur rf|ur rf]; simpl in H; tstep H;
      injection H as <-.
    - unfold solve in E. tstep_as E s1 w1 Hprep.
      apply solver_solve_Ok in E as [? ?]. eauto.
    - unfold sweep in E. tstep_as E s1 w1 Hprep.
      tstep_as E s2 w2 Hrelax.
      apply solver_applyUnderRelaxation_Ok in Hrelax as [-> _].
      tstep_as E res w3 Hres. apply solver_calcResidual_Ok in Hres as ->.
      tstep_as E s3 w4 Hsolve. apply solver_solve_Ok in Hsolve as [Hh Hl].
      injection E as _ <-. exists s1, w1. split; [done|].
      rewrite Hh, Hl. simpl. by rewrite <- !app_assoc.
    - unfold justResidualVector in E. tstep_as E s1 w1 Hprep.
      tstep_as E s2 w2 Hrelax.
      apply solver_applyUnderRelaxation_Ok in Hrelax as [-> _].
      tstep_as E rvec w3 Hvec.
      apply solver_calcResidualVector_Ok in Hvec as [-> _].
      injection E as _ <-. exists s1, w1. split; [done|]. simpl.
      by rewrite <- !app_assoc.
    - unfold residualVectorAndNorm in E. tstep_as E s1 w1 Hprep.
      tstep_as E s2 w2 Hrelax.
      apply solver_applyUnderRelaxation_Ok in Hrelax as [-> _].
      tstep_as E rvec w3 Hvec.
      apply solver_calcResidualVector_Ok in Hvec as [-> _].
      injection E as _ <-. exists s1, w1. split; [done|]. simpl.
      by rewrite <- !app_assoc. }
  apply prepareLinearSystem_Ok in Hprep
    as (o & v & q & v' & m & b & pre & post
        & Ho & Hv & _ & _ & Hh1 & _ & Hl1 & Hpre & Hpost).
  exists o, v, q, v', m, b, pre, post.
  repeat split; try done; [congruence|].
  rewrite Hlog, Hl1, <- !app_assoc. done.
Qed.

Lemma bind_raises {A B} (m : M World A) (k : A -> M World B) w e w' :
  m w = (Raise e, w') -> bind m k w = (Raise e, w').
Proof. intros H. unfold bind. by rewrite H. Qed.

Lemma prepareLinearSystem_missing self o solver bcs dt w :
  heap w !! self = Some o -> var o = None ->
  _prepareLinearSystem subclass self None solver bcs dt w
  = (Raise missing_variable, w).
Proof.
  intros Ho Hvar. unfold _prepareLinearSystem. unfold bind at 1.
  rewrite (deref_run _ _ _ Ho), buildMatrix_unfold. unfold bind at 1.
  rewrite (deref_run _ _ _ Ho). apply bind_raises.
  unfold lift, _verifyVar. by rewrite Hvar.
Qed.

Lemma holds_insert self self' o f (P : Obj -> Prop) w :
  heap w !! self' = Some o -> (P o -> P (f o)) ->
  holds self P w -> holds self P (set_heap (<[self' := f o]> (heap w)) w).
Proof.
  intros Ho Hf (o0 & Ho0 & HP). unfold holds. simpl.
  destruct (decide (self' = self)) as [->|Hne].
  - rewrite list_lookup_insert_eq by (by eapply lookup_lt_Some).
    rewrite Ho in Ho0. injection Ho0 as ->. eauto.
  - rewrite list_lookup_insert_ne by done. eauto.
Qed.

Lemma stable_holds self (P : Obj -> Prop) :
  (forall o m, P o ->
     P (set_matrix (if _cacheMatrix o then Some m else None) o)) ->
  (forall o b, P o ->
     P (set_RHSvector (if _cacheRHSvector o then Some b else None) o)) ->
  stable (holds self P).
Proof.
  intros Hm Hb. split.
  - intros e w _ H. exact H.
  - intros b w H. exact H.
  - intros self' o m w Ho H. apply holds_insert; auto.
  - intros self' o b w Ho H. apply holds_insert; auto.
Qed.

Lemma inv_run J E e self var solver bcs dt :
  stable J -> foreign_ok E ->
  (forall w, J w -> J (add_log [Solve] w)) ->
  (forall vals w, J w -> J (set_values vals w)) ->
  (forall w o e, J w -> heap w !! self = Some o ->
                 _verifyVar o var = Raise e -> E e) ->
  inv J E (run subclass e self var solver bcs dt).
Proof.
  intros HJ HE Hs Hv Hvar.
  destruct e; simpl; (apply inv_bind; [|intros ?; apply inv_ret]).
  - by apply inv_solve.
  - by apply inv_sweep.
  - by apply inv_justResidualVector.
  - by apply inv_residualVectorAndNorm.
Qed.

(** C7: an entry point called without a [var] argument on a leaf term that
    has no bound variable raises the missing-solution-variable error, and
    leaves everything as it was; when the term has a bound variable or a
    [var] argument is given, no entry point raises that error. *)
Theorem missing_solution_variable e self o solver bcs dt w :
  heap w !! self = Some o -> parts o = None ->
  (var o = None ->
   run subclass e self None solver bcs dt w = (Raise missing_variable, w)) /\
  (forall v, v <> None \/ var o <> None ->
   (run subclass e self v solver bcs dt w).1 <> Raise missing_variable).
Proof.
  intros Ho _. split.
  - intros Hvar.
    pose proof (prepareLinearSystem_missing self o solver bcs dt w Ho Hvar).
    destruct e; simpl; apply bind_raises;
      [unfold solve | unfold sweep | unfold justResidualVector
      | unfold residualVectorAndNorm]; apply bind_raises; exact H.
  - intros v Hv.
    assert (inv (holds self (fun o' => var o' = var o))
              (fun e => e <> missing_variable)
              (run subclass e self v solver bcs dt)) as Hinv.
    { apply inv_run.
      - apply stable_holds; by intros [].
      - intros msg. by repeat split.
      - intros w0 H. exact H.
      - intros vals w0 H. exact H.
      - intros w0 o0 e0 (o1 & Ho1 & Hsame) Ho0.
        rewrite Ho0 in Ho1. injection Ho1 as <-.
        unfold _verifyVar. destruct v as [v|]; [discriminate|].
        rewrite Hsame. destruct (var o); [discriminate|].
        by destruct Hv. }
    specialize (Hinv w). destruct (run subclass e self v solver bcs dt w) as [[u|e0] w'].
    + discriminate.
    + simpl. intros [= ->]. destruct Hinv as [_ Hne]; [by exists o|].
      by apply Hne.
Qed.

(** C8: the two residual-only entry points never call the solve step and
    leave the value of every variable as it was, however they end; when
    they return, the system was built and stored, under-relaxation was
    applied, and the residual vector returned is the one the solver
    computed, with its L2 norm for [residualVectorAndNorm]. *)
Theorem residual_entry_points_do_not_solve self var solver bcs dt u rf w :
  (forall r w',
      justResidualVector subclass self var solver bcs dt u rf w = (r, w') ->
      values w' = values w /\
      exists evs, log w' = log w ++ evs /\ Solve ∉ evs) /\
  (forall r w',
      residualVectorAndNorm subclass self var solver bcs dt u rf w = (r, w') ->
      values w' = values w /\
      exists evs, log w' = log w ++ evs /\ Solve ∉ evs) /\
  (forall rvec s w',
      justResidualVector subclass self var solver bcs dt u rf w
      = (Ok (rvec, s), w') ->
      exists s1 w1,
        _prepareLinearSystem subclass self var solver bcs dt w = (Ok s1, w1) /\
        _applyUnderRelaxation u s1 = inr s /\
        _calcResidualVector rf s (values w) = inr rvec /\
        log w' = log w1 ++ [ApplyUnderRelaxation u; CalcResidualVector]) /\
  (forall rvec n s w',
      residualVectorAndNorm subclass self var solver bcs dt u rf w
      = (Ok (rvec, n, s), w') ->
      exists s1 w1,
        _prepareLinearSystem subclass self var solver bcs dt w = (Ok s1, w1) /\
        _applyUnderRelaxation u s1 = inr s /\
        _calcResidualVector rf s (values w) = inr rvec /\
        n = L2norm rvec /\
        log w' = log w1 ++ [ApplyUnderRelaxation u; CalcResidualVector]).
Proof.
  set (J := fun w' : World =>
    values w' = values w /\ exists evs, log w' = log w ++ evs /\ Solve ∉ evs).
  assert (stable J) as HJ.
  { split.
    - intros e w0 He (Hv & evs & Hl & Hno). split; [done|].
      exists (evs ++ [e]). simpl. rewrite Hl, <- app_assoc. split; [done|].
      rewrite elem_of_app, list_elem_of_singleton. intros [?|?]; [done|].
      by subst.
    - intros b w0 H. exact H.
    - intros self' o m w0 _ H. exact H.
    - intros self' o b w0 _ H. exact H. }
  assert (J w) as Hw.
  { split; [done|]. exists []. rewrite app_nil_r. split; [done|].
    apply not_elem_of_nil. }
  assert (foreign_ok (fun _ => True)) as HE by done.
  split; [|split; [|split]].
  - intros r w' Hrun.
    pose proof (inv_justResidualVector J _ HJ HE self var solver bcs dt u rf
                  (fun _ _ _ _ _ _ => I) w Hw) as H.
    rewrite Hrun in H. destruct r; [exact H | exact (proj1 H)].
  - intros r w' Hrun.
    pose proof (inv_residualVectorAndNorm J _ HJ HE self var solver bcs dt u rf
                  (fun _ _ _ _ _ _ => I) w Hw) as H.
    rewrite Hrun in H. destruct r; [exact H | exact (proj1 H)].
  - intros rvec s w' H. unfold justResidualVector in H.
    tstep_as H s1 w1 Hprep. exists s1, w1. split; [done|].
    pose proof (prepareLinearSystem_Ok _ _ _ _ _ _ _ _ Hprep)
      as (? & ? & ? & ? & ? & ? & ? & ? & _ & _ & _ & _ & _ & Hvals & _).
    tstep_as H s2 w2 Hrelax.
    apply solver_applyUnderRelaxation_Ok in Hrelax as [-> Hrelax].
    tstep_as H rv w3 Hvec.
    apply solver_calcResidualVector_Ok in Hvec as [-> Hvec].
    injection H as <- <- <-. simpl in *. rewrite <- Hvals.
    repeat split; try done. by rewrite <- app_assoc.
  - intros rvec n s w' H. unfold residualVectorAndNorm in H.
    tstep_as H s1 w1 Hprep. exists s1, w1. split; [done|].
    pose proof (prepareLinearSystem_Ok _ _ _ _ _ _ _ _ Hprep)
      as (? & ? & ? & ? & ? & ? & ? & ? & _ & _ & _ & _ & _ & Hvals & _).
    tstep_as H s2 w2 Hrelax.
    apply solver_applyUnderRelaxation_Ok in Hrelax as [-> Hrelax].
    tstep_as H rv w3 Hvec.
    apply solver_calcResidualVector_Ok in Hvec as [-> Hvec].
    injection H as <- <- <- <-. simpl in *. rewrite <- Hvals.
    repeat split; try done. by rewrite <- app_assoc.
Qed.

(** C9: a [var] argument that is not [None] is the variable the system is
    built for, whatever variable the term is bound to; the bound variable
    is used when the argument is [None]. *)
Theorem explicit_var_takes_precedence (o : Obj) (v : Var) :
  _verifyVar o (Some v) = Ok v /\
  (forall v0, var o = Some v0 -> _verifyVar o None = Ok v0) /\
  (forall e self solver bcs dt w u w',
      heap w !! self = Some o ->
      run subclass e self (Some v) solver bcs dt w = (Ok u, w') ->
      exists q v' m b pre post,
        log w' = log w ++ pre ++ [BuildMatrix self v q; StoreMatrix v' m b]
                   ++ post ++ after_build e /\
        forallb is_setup pre = true /\ forallb is_display post = true).
Proof.
  split; [done|]. split.
  - intros v0 Hv0. unfold _verifyVar. by rewrite Hv0.
  - intros e self solver bcs dt w u w' Ho Hrun.
    apply run_Ok in Hrun
      as (o' & v1 & q & v' & m & b & pre & post & _ & Hv1 & _ & Hlog & ?).
    injection Hv1 as <-. by exists q, v', m, b, pre, post.
Qed.

Lemma update_run self f o w :
  heap w !! self = Some o ->
  update self f w = (Ok tt, set_heap (<[self := f o]> (heap w)) w).
Proof. intros Ho. unfold update, bind, get, put. by rewrite Ho. Qed.

Lemma holds_update self (P Q : Obj -> Prop) f w :
  (forall o, P o -> Q (f o)) ->
  holds self P w -> holds self Q (update self f w).2.
Proof.
  intros Hf (o & Ho & HP). rewrite (update_run _ _ _ _ Ho). simpl.
  exists (f o). split; [|by apply Hf]. simpl.
  apply list_lookup_insert_eq. by eapply lookup_lt_Some.
Qed.

Lemma getMatrix_run self o w :
  heap w !! self = Some o ->
  getMatrix self w
  = if _cacheMatrix o then (Ok (matrix o), w)
    else (Ok (matrix o),
          set_heap (<[self := set_cacheMatrix o]> (heap w))
            (add_log [Warn "cacheMatrix() should be called followed by sweep() or solve() to calculate the matrix. None will be returned on this occasion."] w)).
Proof.
  intros Ho. unfold getMatrix. unfold bind at 1. rewrite (deref_run _ _ _ Ho).
  destruct (_cacheMatrix o) eqn:Hflag.
  - unfold bind at 1, ret at 1. unfold bind. by rewrite (deref_run _ _ _ Ho).
  - unfold bind at 1. unfold bind at 1, emit at 1, modify at 1.
    unfold cacheMatrix. rewrite (update_run _ _ o) by done.
    unfold bind. rewrite (deref_run _ (set_cacheMatrix o)); [done|].
    simpl. apply list_lookup_insert_eq. by eapply lookup_lt_Some.
Qed.

Lemma getRHSvector_run self o w :
  heap w !! self = Some o ->
  getRHSvector self w
  = if _cacheRHSvector o then (Ok (RHSvector o), w)
    else (Ok (RHSvector o),
          set_heap (<[self := set_cacheRHSvector o]> (heap w))
            (add_log [Warn "getRHSvector should be called after cacheRHSvector() and either sweep() or solve() to calculate the RHS vector. None will be returned on this occasion."] w)).
Proof.
  intros Ho. unfold getRHSvector. unfold bind at 1.
  rewrite (deref_run _ _ _ Ho).
  destruct (_cacheRHSvector o) eqn:Hflag.
  - unfold bind at 1, ret at 1. unfold bind. by rewrite (deref_run _ _ _ Ho).
  - unfold bind at 1. unfold bind at 1, emit at 1, modify at 1.
    unfold cacheRHSvector. rewrite (update_run _ _ o) by done.
    unfold bind. rewrite (deref_run _ (set_cacheRHSvector o)); [done|].
    simpl. apply list_lookup_insert_eq. by eapply lookup_lt_Some.
Qed.

Lemma stable_flags self fm fr : stable (holds self (flags fm fr)).
Proof.
  apply stable_holds.
  - intros o m (<- & <- & Hm & Hb). repeat split; try done.
    simpl. intros ->. done.
  - intros o b (<- & <- & Hm & Hb). repeat split; try done.
    simpl. intros ->. done.
Qed.

Lemma perform_flags self r fm fr w :
  holds self (flags fm fr) w ->
  holds self (flags (fm || asks_matrix r) (fr || asks_RHSvector r))
    (perform subclass self r w).2.
Proof.
  intros H. destruct r as [| | | |e var solver bcs dt]; simpl;
    rewrite ?orb_true_r, ?orb_false_r.
  - eapply holds_update; [|exact H].
    intros o (_ & <- & _ & Hb). by repeat split.
  - destruct H as (o & Ho & Hfm & Hfr & Hm & Hb).
    unfold bind. rewrite (getMatrix_run _ _ _ Ho).
    destruct (_cacheMatrix o) eqn:Hflag; simpl.
    + exists o. subst. by repeat split.
    + exists (set_cacheMatrix o). split.
      * apply list_lookup_insert_eq. by eapply lookup_lt_Some.
      * by repeat split.
  - eapply holds_update; [|exact H].
    intros o (<- & _ & Hm & _). by repeat split.
  - destruct H as (o & Ho & Hfm & Hfr & Hm & Hb).
    unfold bind. rewrite (getRHSvector_run _ _ _ Ho).
    destruct (_cacheRHSvector o) eqn:Hflag; simpl.
    + exists o. subst. by repeat split.
    + exists (set_cacheRHSvector o). split.
      * apply list_lookup_insert_eq. by eapply lookup_lt_Some.
      * by repeat split.
  - pose proof (inv_run (holds self (flags fm fr)) (fun _ => True)
                  e self var solver bcs dt (stable_flags self fm fr)) as Hinv.
    specialize (Hinv (fun _ => conj I (conj I I)) (fun _ H => H)
                  (fun _ _ H => H) (fun _ _ _ _ _ _ => I) w H).
    destruct (run subclass e self var solver bcs dt w) as [[u|e0] w']; simpl; tauto.
Qed.

Lemma session_flags self rs fm fr w :
  holds self (flags fm fr) w ->
  holds self (flags (fm || existsb asks_matrix rs)
                    (fr || existsb asks_RHSvector rs))
    (session subclass self rs w).
Proof.
  revert fm fr w. induction rs as [|r rs IH]; intros fm fr w H; simpl.
  - by rewrite !orb_false_r.
  - rewrite !orb_assoc. apply IH. by apply perform_flags.
Qed.

Lemma new_flags class c v w :
  class <> "Term" ->
  holds (length (heap w)) (flags false false) (new class c v w).2.
Proof.
  intros Hclass. rewrite new_run by done. simpl.
  exists (leaf_node class c v). split; [|done]. simpl.
  by destruct (lookup_fresh w (leaf_node class c v)) as (_ & ? & _).
Qed.

Lemma last_stored_build e self v q v' m b pre post :
  forallb is_display post = true ->
  last_stored (pre ++ [BuildMatrix self v q; StoreMatrix v' m b]
                 ++ post ++ after_build e) = Some (v', m, b).
Proof.
  intros Hpost. unfold last_stored. rewrite !omap_app. simpl.
  assert (omap stored post = []) as ->.
  { induction post as [|x post IH]; [done|].
    apply andb_true_iff in Hpost as [Hx Hpost].
    specialize (IH Hpost). destruct x; try done; simpl; exact IH. }
  assert (omap stored (after_build e) = []) as -> by by destruct e.
  simpl. by rewrite last_snoc.
Qed.

(** C5: take a term as its constructor leaves it and any calls on it; when
    an entry point then builds and returns, the stored matrix is the matrix
    just handed to the solver if [cacheMatrix()] was called before (by the
    caller or by [getMatrix()]) and [None] otherwise, and likewise for the
    right-hand side vector; with no such call both are [None]. *)
Theorem cache_follows_request class c v w0 rs e var solver bcs dt u w2 :
  class <> "Term" ->
  let self := length (heap w0) in
  let w1 := session subclass self rs (new class c v w0).2 in
  run subclass e self var solver bcs dt w1 = (Ok u, w2) ->
  exists o2 v' m b evs,
    heap w2 !! self = Some o2 /\
    log w2 = log w1 ++ evs /\
    last_stored evs = Some (v', m, b) /\
    matrix o2 = (if existsb asks_matrix rs then Some m else None) /\
    RHSvector o2 = (if existsb asks_RHSvector rs then Some b else None).
Proof.
  intros Hclass self w1 Hrun.
  pose proof (session_flags self rs false false _ (new_flags class c v w0 Hclass))
    as (o & Ho & Hfm & Hfr & _). fold self in Ho. fold w1 in Ho.
  simpl in Hfm, Hfr.
  apply run_Ok in Hrun
    as (o' & v1 & q & v' & m & b & pre & post
        & Ho' & _ & Hheap & Hlog & _ & Hpost).
  rewrite Ho in Ho'. injection Ho' as <-.
  eexists (cache o m b), v', m, b, _. split.
  { rewrite Hheap. apply list_lookup_insert_eq. by eapply lookup_lt_Some. }
  split; [exact Hlog|]. split; [by apply last_stored_build|].
  simpl. by rewrite Hfm, Hfr.
Qed.

(** C10: on a term on which [cacheMatrix()] was never called, [getMatrix()]
    returns [None] and sets the caching flag; the entry point that builds
    next leaves the matrix it handed to the solver on the term, and
    [getMatrix()] then returns it.  The same holds of [getRHSvector()]. *)
Theorem get_enables_caching class c v w0 rs :
  class <> "Term" ->
  let self := length (heap w0) in
  let w1 := session subclass self rs (new class c v w0).2 in
  (existsb asks_matrix rs = false ->
   exists w2,
     getMatrix self w1 = (Ok None, w2) /\
     holds self (fun o => _cacheMatrix o = true) w2 /\
     forall e var solver bcs dt u w3,
       run subclass e self var solver bcs dt w2 = (Ok u, w3) ->
       exists v' m b evs,
         log w3 = log w2 ++ evs /\ last_stored evs = Some (v', m, b) /\
         getMatrix self w3 = (Ok (Some m), w3)) /\
  (existsb asks_RHSvector rs = false ->
   exists w2,
     getRHSvector self w1 = (Ok None, w2) /\
     holds self (fun o => _cacheRHSvector o = true) w2 /\
     forall e var solver bcs dt u w3,
       run subclass e self var solver bcs dt w2 = (Ok u, w3) ->
       exists v' m b evs,
         log w3 = log w2 ++ evs /\ last_stored evs = Some (v', m, b) /\
         getRHSvector self w3 = (Ok (Some b), w3)).
Proof.
  intros Hclass self w1.
  pose proof (session_flags self rs false false _ (new_flags class c v w0 Hclass))
    as (o & Ho & Hfm & Hfr & Hm & Hb). fold self in Ho. fold w1 in Ho.
  simpl in Hfm, Hfr, Hm, Hb.
  assert (self < length (heap w1))%nat as Hlt by by eapply lookup_lt_Some.
  split; intros Hnever.
  - rewrite Hnever in Hfm, Hm. eexists. split; [|split].
    + rewrite (getMatrix_run _ _ _ Ho), Hfm, (Hm eq_refl). reflexivity.
    + exists (set_cacheMatrix o). split; [|done]. simpl.
      by apply list_lookup_insert_eq.
    + intros e var solver bcs dt u w3 Hrun.
      apply run_Ok in Hrun
        as (o' & v1 & q & v' & m & b & pre & post
            & Ho' & _ & Hheap & Hlog & _ & Hpost).
      simpl in Ho'. rewrite list_lookup_insert_eq in Ho' by done.
      injection Ho' as <-.
      eexists v', m, b, _. split; [exact Hlog|].
      split; [by apply last_stored_build|].
      rewrite (getMatrix_run _ (cache (set_cacheMatrix o) m b)); [done|].
      rewrite Hheap. apply list_lookup_insert_eq.
      simpl. by rewrite length_insert.
  - rewrite Hnever in Hfr, Hb. eexists. split; [|split].
    + rewrite (getRHSvector_run _ _ _ Ho), Hfr, (Hb eq_refl). reflexivity.
    + exists (set_cacheRHSvector o). split; [|done]. simpl.
      by apply list_lookup_insert_eq.
    + intros e var solver bcs dt u w3 Hrun.
      apply run_Ok in Hrun
        as (o' & v1 & q & v' & m & b & pre & post
            & Ho' & _ & Hheap & Hlog & _ & Hpost).
      simpl in Ho'. rewrite list_lookup_insert_eq in Ho' by done.
      injection Ho' as <-.
      eexists v', m, b, _. split; [exact Hlog|].
      split; [by apply last_stored_build|].
      rewrite (getRHSvector_run _ (cache (set_cacheRHSvector o) m b)); [done|].
      rewrite Hheap. apply list_lookup_insert_eq.
      simpl. by rewrite length_insert.
Qed.

End SolvingFacts.

(** *** Runs of the examples *)

(** [__Term(coeff=1.).solve()] raises; [__Term(coeff=1.).solve(A)] reaches
    the abstract [_buildMatrix]. *)
Example solve_without_variable :
  (solve example_classes 0 None None (ManyBC []) (DtNumber (PyFloat 1))
     world0).1
  = Raise (Exception "The solution variable needs to be specified").
Proof. reflexivity. Qed.

Example solve_abstract :
  (solve example_classes 0 (Some varA) None (ManyBC []) (DtNumber (PyFloat 1))
     world0).1
  = Raise (NotImplementedError "").
Proof. reflexivity. Qed.

Lemma missing_solution_variable_witness :
  (var (leaf_node "__Term" (CNum (PyFloat 1)) None) = None ->
   run example_classes Solve_entry 0 None None (ManyBC [])
     (DtNumber (PyFloat 1)) world0
   = (Raise missing_variable, world0)) /\
  (forall v,
      v <> None \/ var (leaf_node "__Term" (CNum (PyFloat 1)) None) <> None ->
      (run example_classes Solve_entry 0 v None (ManyBC [])
         (DtNumber (PyFloat 1)) world0).1
      <> Raise missing_variable).
Proof.
  apply (missing_solution_variable example_classes Solve_entry 0
           (leaf_node "__Term" (CNum (PyFloat 1)) None));
    reflexivity.
Defined.

Lemma cache_follows_request_witness :
  exists o2 v' m b evs,
    heap unit_run.2 !! length (heap world0) = Some o2 /\
    log unit_run.2
    = log (session example_classes (length (heap world0)) [CallCacheMatrix]
             (new "UnitTerm" (CNum (PyFloat 1)) None world0).2) ++ evs /\
    last_stored evs = Some (v', m, b) /\
    matrix o2
    = (if existsb asks_matrix [@CallCacheMatrix PlainSolver]
       then Some m else None) /\
    RHSvector o2
    = (if existsb asks_RHSvector [@CallCacheMatrix PlainSolver]
       then Some b else None).
Proof.
  apply (cache_follows_request example_classes "UnitTerm" (CNum (PyFloat 1))
           None world0 [CallCacheMatrix] Solve_entry (Some varA) None
           (ManyBC []) (DtNumber (PyFloat 1)) tt unit_run.2).
  - discriminate.
  - change (unit_run = (Ok tt, unit_run.2)).
    assert (unit_run.1 = Ok tt) as H by (vm_compute; reflexivity).
    destruct unit_run as [r w]. simpl in *. by rewrite H.
Defined.

Example unit_matrix_cached :
  (getMatrix 2 unit_run.2).1 = Ok (Some [[1]]) /\
  (getRHSvector 2 unit_run.2).1 = Ok None.
Proof. split; vm_compute; reflexivity. Qed.

Lemma get_enables_caching_witness :
  (existsb asks_matrix (@nil (@request PlainSolver)) = false ->
   exists w2,
     getMatrix (length (heap world0))
       (new "UnitTerm" (CNum (PyFloat 1)) None world0).2 = (Ok None, w2) /\
     holds (length (heap world0)) (fun o => _cacheMatrix o = true) w2 /\
     forall e var solver bcs dt u w3,
       run example_classes e (length (heap world0)) var solver bcs dt w2
       = (Ok u, w3) ->
       exists v' m b evs,
         log w3 = log w2 ++ evs /\ last_stored evs = Some (v', m, b) /\
         getMatrix (length (heap world0)) w3 = (Ok (Some m), w3)) /\
  (existsb asks_RHSvector (@nil (@request PlainSolver)) = false ->
   exists w2,
     getRHSvector (length (heap world0))
       (new "UnitTerm" (CNum (PyFloat 1)) None world0).2 = (Ok None, w2) /\
     holds (length (heap world0)) (fun o => _cacheRHSvector o = true) w2 /\
     forall e var solver bcs dt u w3,
       run example_classes e (length (heap world0)) var solver bcs dt w2
       = (Ok u, w3) ->
       exists v' m b evs,
         log w3 = log w2 ++ evs /\ last_stored evs = Some (v', m, b) /\
         getRHSvector (length (heap world0)) w3 = (Ok (Some b), w3)).
Proof.
  apply (get_enables_caching example_classes "UnitTerm" (CNum (PyFloat 1))
           None world0 []).
  discriminate.
Defined.

(** *** The operators *)

(** C3, at a concrete input: multiplying a term by a term, and coupling a
    term with a number, raise while the expression is being composed. *)
Lemma composition_raises :
  (__mul__ 0 (OTerm 1) world0).1
  = Raise (Exception "Must multiply terms by int or float.") /\
  (__and__ CoupledBinaryTerm_new 0 (ONum (PyInt 3)) world0).1
  = Raise (Exception "").
Proof. split; reflexivity. Qed.

Section OperatorFacts.

Variable _BinaryTerm : nat -> operand -> M World nat.
Variable _CoupledBinaryTerm : nat -> nat -> M World nat.
Variable composite_neg : nat -> M World nat.

Lemma sub_number_run (self : nat) (n : number) (w : World) :
  __sub__ _BinaryTerm composite_neg self (ONum n) w
  = __add__ _BinaryTerm self (ONum (neg_number n)) w.
Proof. reflexivity. Qed.

(** C3, amended: the operand checks of [*] and [&] are made while the
    expression is composed: [*] raises unless its operand is an int or a
    float, and [&] raises unless its operand is a term.  The other
    operators make no check of their own: [+] returns the term itself for
    a zero and else what the constructor of the composite returns, [-] and
    [==] on a number are [+] of the negated number, [&] on a term returns
    what the constructor of the coupled composite returns, and [*] by a
    number returns a new term of the same class when the coefficient is a
    number. *)
Theorem composition_errors (self : nat) (other : operand) (w : World) :
  ((forall k, other <> ONum k) ->
     __mul__ self other w
     = (Raise (Exception "Must multiply terms by int or float."), w)) /\
  ((forall l, other <> OTerm l) ->
     __and__ _CoupledBinaryTerm self other w = (Raise (Exception ""), w)) /\
  (is_zero_number other = true ->
     __add__ _BinaryTerm self other w = (Ok self, w)) /\
  (is_zero_number other = false ->
     __add__ _BinaryTerm self other w = _BinaryTerm self other w) /\
  (forall n, other = ONum n ->
     __sub__ _BinaryTerm composite_neg self other w
     = __add__ _BinaryTerm self (ONum (neg_number n)) w /\
     __eq__ _BinaryTerm composite_neg self other w
     = __add__ _BinaryTerm self (ONum (neg_number n)) w) /\
  (forall l, other = OTerm l ->
     __and__ _CoupledBinaryTerm self other w = _CoupledBinaryTerm self l w) /\
  (forall k o n,
     other = ONum k -> heap w !! self = Some o -> cls o <> "Term" ->
     coeff o = CNum n ->
     exists l' w', __mul__ self other w = (Ok l', w') /\
       heap w' !! l'
       = Some (leaf_node (cls o) (CNum (mul_number k n)) (var o))).
Proof.
  split; [|split; [|split; [|split; [|split; [|split]]]]].
  - intros H. destruct other; try done. by destruct (H n).
  - intros H. destruct other; try done. by destruct (H l).
  - intros Hz. unfold __add__. by rewrite Hz.
  - intros Hz. unfold __add__. by rewrite Hz.
  - by intros n ->.
  - by intros l ->.
  - intros k o n -> Ho Hcls Hcoeff. unfold __mul__, bind.
    rewrite (deref_run _ _ _ Ho), Hcoeff. simpl. rewrite new_run by done.
    eexists _, _. split; [reflexivity|]. simpl.
    by destruct (lookup_fresh w (leaf_node (cls o) (CNum (mul_number k n))
                                  (var o))) as (_ & ? & _).
Qed.

(** C6: [t == x] is [t - x], which is [t + (-x)]; what comes back is a term
    and never a boolean.  For a number [x] that is the term itself when
    [x] is zero and else the composite of [t] and [-x]; for a leaf term
    [x] with a numeric coefficient it is the composite of [t] and a fresh
    copy of [x] whose coefficient is negated. *)
Theorem eq_is_sub (self : nat) (other : operand) (w : World) :
  __eq__ _BinaryTerm composite_neg self other w
  = __sub__ _BinaryTerm composite_neg self other w /\
  __sub__ _BinaryTerm composite_neg self other w
  = bind (neg_operand composite_neg other)
      (fun negated => __add__ _BinaryTerm self negated) w /\
  (forall n, other = ONum n -> is_zero_number other = true ->
     __eq__ _BinaryTerm composite_neg self other w = (Ok self, w)) /\
  (forall n, other = ONum n -> is_zero_number other = false ->
     __eq__ _BinaryTerm composite_neg self other w
     = _BinaryTerm self (ONum (neg_number n)) w) /\
  (forall l o n,
     other = OTerm l -> heap w !! l = Some o -> parts o = None ->
     cls o <> "Term" -> coeff o = CNum n ->
     __eq__ _BinaryTerm composite_neg self other w
     = _BinaryTerm self (OTerm (length (heap w)))
         (set_heap (heap w ++ [leaf_node (cls o) (CNum (neg_number n)) (var o)])
            w)).
Proof.
  split; [reflexivity|]. split; [reflexivity|]. split; [|split].
  - intros n -> Hz. unfold __eq__. rewrite sub_number_run.
    unfold __add__. by rewrite is_zero_neg, Hz.
  - intros n -> Hz. unfold __eq__. rewrite sub_number_run.
    unfold __add__. by rewrite is_zero_neg, Hz.
  - intros l o n -> Ho Hparts Hcls Hcoeff.
    unfold __eq__, __sub__, neg_operand, bind.
    rewrite (deref_run _ _ _ Ho), Hparts. unfold __neg__, bind.
    rewrite (deref_run _ _ _ Ho), Hcoeff. simpl.
    rewrite new_run by done. reflexivity.
Qed.

End OperatorFacts.

Lemma composition_errors_witness :
  exists l' w',
    __mul__ 0 (ONum (PyFloat 2)) world0 = (Ok l', w') /\
    heap w' !! l'
    = Some (leaf_node "__Term"
              (CNum (mul_number (PyFloat 2) (PyFloat 1))) None).
Proof.
  destruct (composition_errors BinaryTerm_new CoupledBinaryTerm_new __neg__
              0 (ONum (PyFloat 2)) world0)
    as (_ & _ & _ & _ & _ & _ & H).
  apply (H (PyFloat 2) (leaf_node "__Term" (CNum (PyFloat 1)) None));
    [reflexivity | reflexivity | simpl; discriminate | reflexivity].
Defined.

Lemma eq_is_sub_witness :
  __eq__ BinaryTerm_new __neg__ 0 (OTerm 1) world0
  = BinaryTerm_new 0 (OTerm (length (heap world0)))
      (set_heap
         (heap world0 ++
            [leaf_node "__Term" (CNum (neg_number (PyFloat 2))) None])
         world0).
Proof.
  destruct (eq_is_sub BinaryTerm_new __neg__ 0 (OTerm 1) world0)
    as (_ & _ & _ & _ & H).
  apply (H 1%nat (leaf_node "__Term" (CNum (PyFloat 2)) None) (PyFloat 2));
    [reflexivity | reflexivity | reflexivity | simpl; discriminate
    | reflexivity].
Defined.

(** [__Term(coeff=1.) == __Term(coeff=2.)] of the doctests: the composite
    of the first term and a new term of coefficient -2. *)
Example equate_terms :
  let r := __eq__ BinaryTerm_new __neg__ 0 (OTerm 1) world0 in
  r.1 = Ok 3%nat /\
  heap r.2 !! 2%nat = Some (leaf_node "__Term" (CNum (PyFloat (- 2))) None) /\
  heap r.2 !! 3%nat = Some (binary_node 0 (OTerm 2)).
Proof. repeat split. Qed.

(** *** The build, step by step *)

Lemma add_log_nil w : add_log [] w = w.
Proof. destruct w. unfold add_log. simpl. by rewrite app_nil_r. Qed.

Lemma add_log_add_log evs evs' w :
  add_log evs' (add_log evs w) = add_log (evs ++ evs') w.
Proof. unfold add_log. simpl. by rewrite app_assoc. Qed.

Lemma reset_all_eval bcs w :
  reset_all bcs w = (Ok tt, add_log (ResetBoundaryConditionApplied <$> bcs) w).
Proof.
  revert w. induction bcs as [|bc bcs IH]; intros w; simpl.
  - by rewrite add_log_nil.
  - unfold bind, emit, modify. by rewrite IH, add_log_add_log.
Qed.

Section BuildFacts.
Context {Solver : Type} `{!SolverInterface Solver}.
Variable subclass : string -> Subclass Solver.

Lemma build_rest_eval self o v solver bcs dt w :
  heap w !! self = Some o ->
  build_rest subclass self o v solver bcs dt w =
  match call_verifyCoeffType subclass o v with
  | Raise e => (Raise e, checked v w)
  | Ok _ =>
      match float_dt dt with
      | Raise e => (Raise e, checked v w)
      | Ok q =>
          match call_buildMatrix subclass o v
                  (_getMatrixClass solver (getMesh v)) (as_tuple bcs) q
                  (values w) with
          | Raise e => (Raise e, readied self v bcs q w)
          | Ok (v', m, b) =>
              (Ok (_storeMatrix v' m b solver), built self o v bcs q v' m b w)
          end
      end
  end.
Proof.
  intros Ho. unfold build_rest, _checkVar, built, readied, checked.
  assert (self < length (heap w))%nat as Hlt by by eapply lookup_lt_Some.
  unfold bind, lift, emit, modify, get, ret.
  destruct (floats v); (destruct (call_verifyCoeffType subclass o v) as [[]|];
    [|reflexivity]); (destruct (float_dt dt) as [q|]; [|reflexivity]);
    rewrite reset_all_eval; simpl;
    destruct (display_matrix w); simpl; try destruct (viewer w); simpl;
    (match goal with
     | |- context [call_buildMatrix ?a ?b ?c ?d ?e ?f ?g] =>
         destruct (call_buildMatrix a b c d e f g) as [[[v' m] b']|]
     end; [|reflexivity]);
    unfold update, bind, get, put; simpl; rewrite Ho; simpl;
    rewrite list_lookup_insert_eq by done; simpl;
    rewrite list_insert_insert_eq; rewrite ?add_log_add_log; reflexivity.
Qed.


Lemma prepare_eval self o var solver bcs dt w :
  heap w !! self = Some o ->
  _prepareLinearSystem subclass self var solver bcs dt w =
  match _verifyVar o var with
  | Raise e => (Raise e, w)
  | Ok v =>
      build_rest subclass self o v (getDefaultSolver subclass o solver) bcs dt w
  end.
Proof.
  intros Ho. unfold _prepareLinearSystem, __buildMatrix.
  unfold bind at 1. rewrite (deref_run _ _ _ Ho).
  unfold bind at 1. rewrite (deref_run _ _ _ Ho).
  unfold bind at 1, lift at 1. by destruct (_verifyVar o var).
Qed.

Lemma prepare_absent self var solver bcs dt w :
  heap w !! self = None ->
  _prepareLinearSystem subclass self var solver bcs dt w
  = (Raise (Foreign "no such instance"), w).
Proof.
  intros Ho. unfold _prepareLinearSystem, deref, bind, get. by rewrite Ho.
Qed.

Lemma checked_same v w :
  heap (checked v w) = heap w /\ values (checked v w) = values w /\
  viewer (checked v w) = viewer w /\
  display_matrix (checked v w) = display_matrix w /\
  exists evs, log (checked v w) = log w ++ evs /\ forallb is_setup evs = true.
Proof.
  unfold checked. destruct (floats v); simpl; repeat split; try done.
  - exists []. by rewrite app_nil_r.
  - by eexists [_].
Qed.

Lemma readied_same self v bcs q w :
  heap (readied self v bcs q w) = heap w /\
  values (readied self v bcs q w) = values w /\
  viewer (readied self v bcs q w) = (viewer w || display_matrix w) /\
  exists evs,
    log (readied self v bcs q w)
    = log (checked v w) ++ (ResetBoundaryConditionApplied <$> as_tuple bcs)
        ++ evs ++ [BuildMatrix self v q] /\
    (evs = [] \/ evs = [NewViewer]).
Proof.
  destruct (checked_same v w) as (Hh & Hv & Hw & Hd & _).
  unfold readied. destruct (display_matrix w); [destruct (viewer w) eqn:Hview|];
    simpl; rewrite ?Hh, ?Hv, ?Hw, ?Hview, ?orb_false_r; repeat split; try done.
  - exists []. simpl. split; [|by left]. by rewrite <- app_assoc.
  - exists [NewViewer]. simpl. split; [|by right]. by rewrite <- !app_assoc.
  - exists []. simpl. split; [|by left]. by rewrite <- app_assoc.
Qed.

Lemma built_same self o v bcs q v' m b w :
  heap (built self o v bcs q v' m b w) = <[self := cache o m b]> (heap w) /\
  values (built self o v bcs q v' m b w) = values w /\
  viewer (built self o v bcs q v' m b w) = (viewer w || display_matrix w) /\
  exists evs,
    log (built self o v bcs q v' m b w)
    = log (readied self v bcs q w) ++ [StoreMatrix v' m b] ++ evs /\
    forallb is_display evs = true.
Proof.
  destruct (readied_same self v bcs q w) as (Hh & Hv & Hw & _).
  unfold built. destruct (display_matrix w); simpl;
    rewrite ?Hv, ?Hw; repeat split; try done.
  - eexists [_; _]. split; [by rewrite <- !app_assoc | done].
  - exists []. by split.
Qed.




Lemma solver_solve_eval s w :
  solver_solve s w =
  match _solve s (values w) with
  | inl msg => (Raise (Foreign msg), add_log [Solve] w)
  | inr (s', vals) => (Ok s', set_values vals (add_log [Solve] w))
  end.
Proof.
  unfold solver_solve, bind, emit, modify, get, lift. simpl.
  by destruct (_solve s (values w)) as [msg|[s' vals]].
Qed.


Lemma solver_calcResidual_eval rf s w :
  solver_calcResidual rf s w
  = (foreign (_calcResidual rf s (values w)), add_log [CalcResidual] w).
Proof. reflexivity. Qed.

Lemma solver_calcResidualVector_eval rf s w :
  solver_calcResidualVector rf s w
  = (foreign (_calcResidualVector rf s (values w)),
     add_log [CalcResidualVector] w).
Proof. reflexivity. Qed.

Lemma run_raises e self var solver bcs dt w e0 w' :
  _prepareLinearSystem subclass self var solver bcs dt w = (Raise e0, w') ->
  run subclass e self var solver bcs dt w = (Raise e0, w').
Proof.
  intros H. destruct e; simpl; apply bind_raises;
    [unfold solve | unfold sweep | unfold justResidualVector
    | unfold residualVectorAndNorm]; apply bind_raises; exact H.
Qed.




(** X9: with a variable to solve for and a coefficient of the right type,
    every entry point called with a [dt] that has a shape raises the
    [TypeError] that names the type of [dt], before any boundary condition
    is reset and before [_buildMatrix] is called: all it may have done is
    warn about a variable that holds no floats. *)
Theorem shaped_dt_rejected e self o var v solver bcs type_name xs w :
  heap w !! self = Some o ->
  _verifyVar o var = Ok v ->
  call_verifyCoeffType subclass o v = Ok tt ->
  run subclass e self var solver bcs (DtShaped type_name xs) w
  = (Raise (TypeError ("`dt` must be a single number, not a " +:+ type_name)),
     checked v w).
Proof.
  intros Ho Hv Hc. apply run_raises.
  by rewrite (prepare_eval _ _ _ _ _ _ _ Ho), Hv,
    (build_rest_eval _ _ _ _ _ _ _ Ho), Hc.
Qed.

(** X10: a build that gets past its checks resets each boundary condition
    once, in the order given, a lone condition as a tuple of one, right
    after the checks and before [_buildMatrix] is called, whether
    [_buildMatrix] then returns or raises; nothing is reset afterwards. *)
Theorem boundary_conditions_reset_in_order self o var v q solver bcs dt w r w' :
  heap w !! self = Some o ->
  _verifyVar o var = Ok v ->
  call_verifyCoeffType subclass o v = Ok tt ->
  float_dt dt = Ok q ->
  _prepareLinearSystem subclass self var solver bcs dt w = (r, w') ->
  exists evs rest,
    log w' = log (checked v w)
             ++ (ResetBoundaryConditionApplied <$> as_tuple bcs)
             ++ evs ++ BuildMatrix self v q :: rest /\
    (evs = [] \/ evs = [NewViewer]) /\
    Forall (fun ev => is_setup ev = false) rest.
Proof.
  intros Ho Hv Hc Hq.
  rewrite (prepare_eval _ _ _ _ _ _ _ Ho), Hv,
    (build_rest_eval _ _ _ _ _ _ _ Ho), Hc, Hq.
  destruct (readied_same self v bcs q w) as (_ & _ & _ & evs & Hl & Hevs).
  match goal with
  | |- context [call_buildMatrix ?a ?b ?c ?d ?e ?f ?g] =>
      destruct (call_buildMatrix a b c d e f g) as [[[v' m] b']|]
  end; intros [= <- <-].
  - destruct (built_same self o v bcs q v' m b' w)
      as (_ & _ & _ & post & Hl' & Hpost).
    exists evs, (StoreMatrix v' m b' :: post). rewrite Hl', Hl, <- !app_assoc.
    split; [done|]. split; [done|]. constructor; [done|].
    apply Forall_forall. intros ev Hev. rewrite forallb_forall in Hpost.
    apply list_elem_of_In, Hpost in Hev. by destruct ev.
  - exists evs, []. by rewrite Hl.
Qed.

(** X11: when the variable resolves, the coefficient type is accepted,
    [dt] is a number and the [_buildMatrix] of the class returns, the build
    returns: the solver holds the system, the instance keeps what it was
    asked to cache, the values are untouched, and the viewer exists
    afterwards if the matrix is displayed.  If the solver then solves,
    [solve] returns with the values the solver computed. *)
Theorem build_returns self o var v q v' m b solver bcs dt w :
  heap w !! self = Some o ->
  _verifyVar o var = Ok v ->
  call_verifyCoeffType subclass o v = Ok tt ->
  float_dt dt = Ok q ->
  call_buildMatrix subclass o v
    (_getMatrixClass (getDefaultSolver subclass o solver) (getMesh v))
    (as_tuple bcs) q (values w) = Ok (v', m, b) ->
  let s1 := _storeMatrix v' m b (getDefaultSolver subclass o solver) in
  exists w1,
    _prepareLinearSystem subclass self var solver bcs dt w = (Ok s1, w1) /\
    heap w1 = <[self := cache o m b]> (heap w) /\
    values w1 = values w /\
    viewer w1 = (viewer w || display_matrix w) /\
    forall s2 vals,
      _solve s1 (values w) = inr (s2, vals) ->
      exists w2,
        solve subclass self var solver bcs dt w = (Ok s2, w2) /\
        heap w2 = <[self := cache o m b]> (heap w) /\
        values w2 = vals /\
        log w2 = log w1 ++ [Solve].
Proof.
  intros Ho Hv Hc Hq Hb s1.
  destruct (built_same self o v bcs q v' m b w) as (Hh & Hvals & Hview & _).
  assert (_prepareLinearSystem subclass self var solver bcs dt w
          = (Ok s1, built self o v bcs q v' m b w)) as Hprep.
  { by rewrite (prepare_eval _ _ _ _ _ _ _ Ho), Hv,
      (build_rest_eval _ _ _ _ _ _ _ Ho), Hc, Hq, Hb. }
  eexists. split; [exact Hprep|]. repeat split; try done.
  intros s2 vals Hsolve. unfold solve, bind. rewrite Hprep.
  rewrite solver_solve_eval, Hvals, Hsolve. eexists. split; [done|]. done.
Qed.

(** X12: [solve] hands the solver that holds the system straight to the
    solve step.  [sweep] applies the under-relaxation first, and the
    residual it returns is computed by the under-relaxed solver from the
    values as they were before the solve step, which then replaces them. *)
Theorem sweep_residual_precedes_solve self var solver bcs dt w :
  (forall s w',
      solve subclass self var solver bcs dt w = (Ok s, w') ->
      exists s1 w1 vals,
        _prepareLinearSystem subclass self var solver bcs dt w = (Ok s1, w1) /\
        _solve s1 (values w) = inr (s, vals) /\
        values w' = vals /\ log w' = log w1 ++ [Solve]) /\
  (forall u rf res s w',
      sweep subclass self var solver bcs dt u rf w = (Ok (res, s), w') ->
      exists s1 s2 w1 vals,
        _prepareLinearSystem subclass self var solver bcs dt w = (Ok s1, w1) /\
        _applyUnderRelaxation u s1 = inr s2 /\
        _calcResidual rf s2 (values w) = inr res /\
        _solve s2 (values w) = inr (s, vals) /\
        values w' = vals /\
        log w' = log w1 ++ [ApplyUnderRelaxation u; CalcResidual; Solve]).
Proof.
  split.
  - intros s w' H. unfold solve in H. tstep_as H s1 w1 Hprep.
    pose proof (prepareLinearSystem_Ok _ _ _ _ _ _ _ _ _ Hprep)
      as (? & ? & ? & ? & ? & ? & ? & ? & _ & _ & _ & _ & _ & Hvals & _).
    rewrite solver_solve_eval, Hvals in H.
    destruct (_solve s1 (values w)) as [msg|[s' vals]] eqn:Hsolve;
      [discriminate|].
    injection H as <- <-. by exists s1, w1, vals.
  - intros u rf res s w' H. unfold sweep in H. tstep_as H s1 w1 Hprep.
    pose proof (prepareLinearSystem_Ok _ _ _ _ _ _ _ _ _ Hprep)
      as (? & ? & ? & ? & ? & ? & ? & ? & _ & _ & _ & _ & _ & Hvals & _).
    tstep_as H s2 w2 Hrelax.
    apply solver_applyUnderRelaxation_Ok in Hrelax as [-> Hrelax].
    tstep_as H res' w3 Hres. rewrite solver_calcResidual_eval in Hres.
    injection Hres as Hres <-. apply foreign_Ok in Hres.
    tstep_as H s3 w4 Hsolve. rewrite solver_solve_eval in Hsolve.
    simpl in Hres, Hsolve. rewrite Hvals in Hres, Hsolve.
    destruct (_solve s2 (values w)) as [msg|[s' vals]] eqn:Hs;
      [discriminate|].
    injection Hsolve as <- <-. injection H as <- <- <-.
    exists s1, s2, w1, vals. repeat split; try done.
    simpl. by rewrite <- !app_assoc.
Qed.

(** X13: an entry point behaves the same for two [solver] arguments that
    [getDefaultSolver] maps to one solver.  For a class that inherits
    [_getDefaultSolver] the argument is used when there is one and
    [DefaultSolver] otherwise, so leaving it out is passing
    [DefaultSolver]; a class whose [_getDefaultSolver] always answers with
    one solver makes the argument irrelevant. *)
Theorem default_solver_precedence e self o var bcs dt w :
  heap w !! self = Some o ->
  (forall s1 s2,
      getDefaultSolver subclass o s1 = getDefaultSolver subclass o s2 ->
      run subclass e self var s1 bcs dt w = run subclass e self var s2 bcs dt w) /\
  (_getDefaultSolver (subclass (cls o)) = None ->
   getDefaultSolver subclass o None = DefaultSolver /\
   (forall s, getDefaultSolver subclass o (Some s) = s) /\
   run subclass e self var None bcs dt w
   = run subclass e self var (Some DefaultSolver) bcs dt w) /\
  (forall f s0,
      _getDefaultSolver (subclass (cls o)) = Some f ->
      (forall s, f o s = Some s0) ->
      forall s1 s2,
        run subclass e self var s1 bcs dt w
        = run subclass e self var s2 bcs dt w).
Proof.
  intros Ho.
  assert (forall s1 s2,
      getDefaultSolver subclass o s1 = getDefaultSolver subclass o s2 ->
      run subclass e self var s1 bcs dt w = run subclass e self var s2 bcs dt w)
    as Hsame.
  { intros s1 s2 Hs.
    assert (_prepareLinearSystem subclass self var s1 bcs dt w
            = _prepareLinearSystem subclass self var s2 bcs dt w) as Hprep.
    { by rewrite !(prepare_eval _ _ _ _ _ _ _ Ho), Hs. }
    destruct e; simpl;
      unfold solve, sweep, justResidualVector, residualVectorAndNorm;
      unfold bind at 1; unfold bind at 1; by rewrite Hprep. }
  split; [exact Hsame|]. split.
  - intros Hnone. unfold getDefaultSolver. rewrite Hnone.
    repeat split; try done. apply Hsame. unfold getDefaultSolver.
    by rewrite Hnone.
  - intros f s0 Hf Hs0 s1 s2. apply Hsame. unfold getDefaultSolver.
    by rewrite Hf, !Hs0.
Qed.



Lemma undisplayed_app evs evs' :
  undisplayed (evs ++ evs') = undisplayed evs ++ undisplayed evs'.
Proof. apply List.filter_app. Qed.

Lemma built_undisplayed self o v bcs q v' m b w :
  undisplayed (log (built self o v bcs q v' m b w))
  = undisplayed (log (readied self v bcs q w)) ++ [StoreMatrix v' m b].
Proof.
  unfold built. generalize (readied self v bcs q w) as w4. intros w4.
  destruct (display_matrix w); simpl; rewrite !undisplayed_app; simpl;
    by rewrite ?app_nil_r.
Qed.

(** X15: displaying the matrix does not alter the build.  From two worlds
    with the same instances and values, whatever [FIPY_DISPLAY_MATRIX] and
    the viewer are in each, the build returns the same solver or raises the
    same exception and leaves the same instances and values; the logs
    differ by what the viewer did alone. *)
Theorem display_does_not_alter_build self var solver bcs dt w1 w2 :
  heap w1 = heap w2 -> values w1 = values w2 ->
  undisplayed (log w1) = undisplayed (log w2) ->
  let r1 := _prepareLinearSystem subclass self var solver bcs dt w1 in
  let r2 := _prepareLinearSystem subclass self var solver bcs dt w2 in
  r1.1 = r2.1 /\ heap r1.2 = heap r2.2 /\ values r1.2 = values r2.2 /\
  undisplayed (log r1.2) = undisplayed (log r2.2).
Proof.
  intros Hh Hv Hl. simpl.
  destruct (heap w1 !! self) as [o|] eqn:Ho1.
  - assert (heap w2 !! self = Some o) as Ho2 by by rewrite <- Hh.
    rewrite (prepare_eval _ _ _ _ _ _ _ Ho1), (prepare_eval _ _ _ _ _ _ _ Ho2).
    destruct (_verifyVar o var) as [v|]; [|done].
    rewrite (build_rest_eval _ _ _ _ _ _ _ Ho1),
      (build_rest_eval _ _ _ _ _ _ _ Ho2), Hv.
    assert (undisplayed (log (checked v w1)) = undisplayed (log (checked v w2)))
      as Hl1.
    { unfold checked. destruct (floats v); simpl; [done|].
      by rewrite !undisplayed_app, Hl. }
    destruct (checked_same v w1) as (Hh1 & Hv1 & _).
    destruct (checked_same v w2) as (Hh2 & Hv2 & _).
    destruct (call_verifyCoeffType subclass o v); [|cbn [fst snd]; by rewrite Hh1, Hh2, Hv1, Hv2].
    destruct (float_dt dt) as [q|]; [|cbn [fst snd]; by rewrite Hh1, Hh2, Hv1, Hv2].
    assert (undisplayed (log (readied self v bcs q w1))
            = undisplayed (log (readied self v bcs q w2))) as Hl2.
    { unfold readied.
      destruct (display_matrix w1), (viewer w1), (display_matrix w2),
        (viewer w2); simpl; rewrite !undisplayed_app, ?Hl1; simpl;
        rewrite ?app_nil_r; done. }
    destruct (readied_same self v bcs q w1) as (Hh3 & Hv3 & _).
    destruct (readied_same self v bcs q w2) as (Hh4 & Hv4 & _).
    match goal with
    | |- context [call_buildMatrix ?a ?b ?c ?d ?e ?f ?g] =>
        destruct (call_buildMatrix a b c d e f g) as [[[v' m] b']|]
    end; [|cbn [fst snd]; by rewrite Hh3, Hh4, Hv3, Hv4].
    destruct (built_same self o v bcs q v' m b' w1) as (Hh5 & Hv5 & _).
    destruct (built_same self o v bcs q v' m b' w2) as (Hh6 & Hv6 & _).
    cbn [fst snd]. rewrite Hh5, Hh6, Hv5, Hv6, Hh, Hv. repeat split; try done.
    by rewrite !built_undisplayed, Hl2.
  - assert (heap w2 !! self = None) as Ho2 by by rewrite <- Hh.
    by rewrite (prepare_absent _ _ _ _ _ _ Ho1), (prepare_absent _ _ _ _ _ _ Ho2).
Qed.

End BuildFacts.

(** *** Terms derived from terms *)

Lemma new_derived self o c w r w' :
  heap w !! self = Some o ->
  new (cls o) c (var o) w = (r, w') -> derived self w r w'.
Proof.
  intros Ho. unfold new, __init__, bind, lift.
  destruct (decide (cls o = "Term")); simpl; intros [= <- <-]; [done|].
  by exists o, c.
Qed.

Lemma deref_absent self w :
  heap w !! self = None -> deref self w = (Raise (Foreign "no such instance"), w).
Proof. intros H. unfold deref, bind, get. by rewrite H. Qed.

Lemma copy_derived self w r w' : copy self w = (r, w') -> derived self w r w'.
Proof.
  unfold copy. destruct (heap w !! self) as [o|] eqn:Ho.
  - unfold bind. rewrite (deref_run _ _ _ Ho). by apply new_derived.
  - unfold bind. rewrite (deref_absent _ _ Ho). by intros [= <- <-].
Qed.

Lemma neg_derived self w r w' : __neg__ self w = (r, w') -> derived self w r w'.
Proof.
  unfold __neg__. destruct (heap w !! self) as [o|] eqn:Ho.
  - unfold bind at 1. rewrite (deref_run _ _ _ Ho).
    destruct (coeff o); unfold neg_coefficient, bind, lift;
      by apply new_derived.
  - unfold bind. rewrite (deref_absent _ _ Ho). by intros [= <- <-].
Qed.

Lemma mul_derived self other w r w' :
  __mul__ self other w = (r, w') -> derived self w r w'.
Proof.
  unfold __mul__. destruct other as [k| | | |];
    try (unfold raise; by intros [= <- <-]).
  destruct (heap w !! self) as [o|] eqn:Ho.
  - unfold bind at 1. rewrite (deref_run _ _ _ Ho).
    unfold bind at 1, lift.
    destruct (mul_coefficient k (coeff o));
      [by apply new_derived | by intros [= <- <-]].
  - unfold bind. rewrite (deref_absent _ _ Ho). by intros [= <- <-].
Qed.

Section Derived.
Variable reciprocal_times_term : vexpr -> nat -> M World nat.

Lemma div_number self n w :
  __div__ reciprocal_times_term self (ONum n) w
  = match reciprocal n with
    | Ok k => __mul__ self (ONum k) w
    | Raise e => (Raise e, w)
    end.
Proof. unfold __div__, bind, lift. by destruct (reciprocal n). Qed.

(** X16: [__neg__], [__mul__], [__div__] by anything but a variable and
    [copy] never change an instance, a value or the log: each either
    raises, leaving everything as it was, or appends one new leaf of the
    class and variable of the term, with no geometric coefficient, both
    cache flags off and nothing cached, whatever the term had cached.  The
    leaf [copy] makes has the coefficient of the term. *)
Theorem operators_leave_operands self w :
  (forall r w', __neg__ self w = (r, w') -> derived self w r w') /\
  (forall other r w',
      __mul__ self other w = (r, w') -> derived self w r w') /\
  (forall other r w',
      (forall e, other <> OVar e) ->
      __div__ reciprocal_times_term self other w = (r, w') ->
      derived self w r w') /\
  (forall r w', copy self w = (r, w') -> derived self w r w') /\
  (forall l w' o,
      copy self w = (Ok l, w') -> heap w !! self = Some o ->
      heap w' = heap w ++ [leaf_node (cls o) (coeff o) (var o)]).
Proof.
  split; [intros; by eapply neg_derived|].
  split; [intros; by eapply mul_derived|]. split; [|split].
  - intros [n| |e| |] r w' Hother; try (unfold __div__, raise; by intros [= <- <-]);
      [|by destruct (Hother e)].
    rewrite div_number. destruct (reciprocal n);
      [by apply mul_derived | by intros [= <- <-]].
  - intros. by eapply copy_derived.
  - intros l w' o Hcopy Ho. unfold copy, bind in Hcopy.
    rewrite (deref_run _ _ _ Ho) in Hcopy.
    unfold new, __init__, bind, lift in Hcopy.
    destruct (decide (cls o = "Term")); [discriminate|].
    rewrite alloc_run in Hcopy. by injection Hcopy as <- <-.
Qed.

End Derived.

Lemma neg_run self o w :
  heap w !! self = Some o -> cls o <> "Term" ->
  __neg__ self w
  = (Ok (length (heap w)),
     set_heap (heap w ++ [leaf_node (cls o) (negated (coeff o)) (var o)]) w).
Proof.
  intros Ho Hcls. unfold __neg__. unfold bind at 1.
  rewrite (deref_run _ _ _ Ho).
  destruct (coeff o); unfold neg_coefficient, bind, lift; by rewrite new_run.
Qed.

Lemma mul_run self o k c w :
  heap w !! self = Some o -> cls o <> "Term" ->
  mul_coefficient k (coeff o) = Ok c ->
  __mul__ self (ONum k) w
  = (Ok (length (heap w)),
     set_heap (heap w ++ [leaf_node (cls o) c (var o)]) w).
Proof.
  intros Ho Hcls Hc. unfold __mul__. unfold bind at 1.
  rewrite (deref_run _ _ _ Ho). unfold bind, lift. rewrite Hc.
  by rewrite new_run.
Qed.

Lemma neg_number_involutive n : neg_number (neg_number n) = n.
Proof.
  destruct n as [z|[a b]]; simpl; unfold Qopp; simpl;
    by rewrite Z.opp_involutive.
Qed.

Lemma Qopp_opp_eq (q : Q) : Qopp (Qopp q) = q.
Proof. destruct q as [a b]. unfold Qopp. simpl. by rewrite Z.opp_involutive. Qed.

Lemma negated_involutive c :
  negated (negated c)
  = match c with
    | CSeq xs => CArray (to_float <$> xs)
    | CVar e => CVar (VNeg (VNeg e))
    | c => c
    end.
Proof.
  destruct c as [n|xs|xs|e]; simpl.
  - by rewrite neg_number_involutive.
  - f_equal. rewrite <- list_fmap_compose. rewrite <- (list_fmap_id (to_float <$> xs)) at 2.
    apply list_fmap_ext. intros i x _. apply Qopp_opp_eq.
  - f_equal. rewrite <- list_fmap_compose. rewrite <- (list_fmap_id xs) at 2.
    apply list_fmap_ext. intros i x _. apply Qopp_opp_eq.
  - done.
Qed.

(** X17: negating a term twice gives a new term of the same class and
    variable with the coefficient of the original, as an array if the
    original had a tuple or a list, and as the variable negated twice if it
    had a variable; the instances that existed keep their places. *)
Theorem double_negation self o w :
  heap w !! self = Some o -> cls o <> "Term" ->
  exists l w',
    bind (__neg__ self) __neg__ w = (Ok l, w') /\
    heap w !! l = None /\
    heap w' !! l
    = Some (leaf_node (cls o)
              match coeff o with
              | CSeq xs => CArray (to_float <$> xs)
              | CVar e => CVar (VNeg (VNeg e))
              | c => c
              end (var o)) /\
    (forall l', (l' < length (heap w))%nat -> heap w' !! l' = heap w !! l').
Proof.
  intros Ho Hcls. unfold bind. rewrite (neg_run _ _ _ Ho Hcls).
  set (o1 := leaf_node (cls o) (negated (coeff o)) (var o)).
  set (w1 := set_heap (heap w ++ [o1]) w).
  assert (heap w1 !! length (heap w) = Some o1) as Ho1.
  { by destruct (lookup_fresh w o1) as (_ & ? & _). }
  rewrite (neg_run _ _ _ Ho1 Hcls). eexists _, _. split; [reflexivity|].
  simpl. rewrite negated_involutive. split; [|split].
  - apply lookup_ge_None_2. rewrite length_app. lia.
  - rewrite lookup_app_r by lia. rewrite Nat.sub_diag. by destruct (coeff o).
  - intros l' Hl'. rewrite !lookup_app_l; rewrite ?length_app; simpl; [done|lia..].
Qed.

Lemma to_float_mul k n :
  to_float (mul_number k n) == to_float k * to_float n.
Proof.
  destruct k as [a|p], n as [b|q]; simpl; try reflexivity.
Qed.


Lemma Forall2_scale (f g : Q -> Q) (xs : list Q) :
  (forall x, f x == g x) -> Forall2 Qeq (f <$> xs) (g <$> xs).
Proof.
  intros H. induction xs as [|x xs IH]; simpl; constructor; auto.
Qed.

(** X18: for a number or array coefficient [-term] and [-1 * term] have
    the same coefficient.  For a tuple or list coefficient they part ways:
    [-term] negates it element by element, as an array, [-1 * term] is the
    tuple repeated no times, the empty tuple, and [-1. * term] raises the
    [TypeError] of a sequence multiplied by a float, creating nothing. *)
Theorem negation_versus_scaling self o w :
  heap w !! self = Some o -> cls o <> "Term" ->
  exists l w1,
    __neg__ self w = (Ok l, w1) /\
    heap w1 !! l = Some (leaf_node (cls o) (negated (coeff o)) (var o)) /\
    match coeff o with
    | CNum _ | CArray _ =>
        exists w2 c,
          __mul__ self (ONum (PyInt (-1))) w = (Ok l, w2) /\
          heap w2 !! l = Some (leaf_node (cls o) c (var o)) /\
          same_coefficient c (negated (coeff o))
    | CSeq xs =>
        (exists w2,
            __mul__ self (ONum (PyInt (-1))) w = (Ok l, w2) /\
            heap w2 !! l = Some (leaf_node (cls o) (CSeq []) (var o))) /\
        __mul__ self (ONum (PyFloat (-1))) w
        = (Raise (TypeError "can't multiply sequence by non-int of type 'float'"),
           w)
    | CVar e =>
        exists w2,
          __mul__ self (ONum (PyInt (-1))) w = (Ok l, w2) /\
          heap w2 !! l
          = Some (leaf_node (cls o) (CVar (VScale (PyInt (-1)) e)) (var o))
    end.
Proof.
  intros Ho Hcls. rewrite (neg_run _ _ _ Ho Hcls). eexists _, _.
  split; [reflexivity|].
  assert (forall o', (heap w ++ [o']) !! length (heap w) = Some o') as Hat.
  { intros o'. by destruct (lookup_fresh w o') as (_ & ? & _). }
  split; [apply Hat|].
  destruct (coeff o) as [n|xs|xs|e] eqn:Hc.
  - eexists _, _. rewrite (mul_run _ _ _ _ _ Ho Hcls)
      by (rewrite Hc; reflexivity).
    split; [reflexivity|]. split; [apply Hat|]. simpl.
    destruct n as [z|q]; simpl; [lia | ring].
  - split.
    + eexists. rewrite (mul_run _ _ _ _ _ Ho Hcls)
        by (rewrite Hc; reflexivity).
      split; [reflexivity|]. apply Hat.
    + unfold __mul__. unfold bind at 1. rewrite (deref_run _ _ _ Ho).
      unfold bind, lift. by rewrite Hc.
  - eexists _, _. rewrite (mul_run _ _ _ _ _ Ho Hcls)
      by (rewrite Hc; reflexivity).
    split; [reflexivity|]. split; [apply Hat|]. simpl.
    apply Forall2_scale. intros x. ring.
  - eexists. rewrite (mul_run _ _ _ _ _ Ho Hcls)
      by (rewrite Hc; reflexivity).
    split; [reflexivity|]. apply Hat.
Qed.


Lemma reciprocal_int z :
  reciprocal (PyInt z)
  = if Z.eqb z 0 then Raise ZeroDivisionError
    else Ok (PyInt (if Z.leb 2 z then 0 else if Z.eqb z 1 then 1 else -1)).
Proof.
  unfold reciprocal. destruct (Z.eqb_spec z 0) as [|Hz]; [done|].
  f_equal. f_equal. destruct (Z.leb_spec 2 z) as [H2|H2].
  - apply Z.div_small. lia.
  - destruct (Z.eqb_spec z 1) as [->|H1]; [done|].
    assert (z < 0)%Z as Hneg by lia.
    symmetry. apply (Z.div_unique_neg 1 z (-1) (1 + z)); lia.
Qed.

Section Division.
Variable reciprocal_times_term : vexpr -> nat -> M World nat.

(** X20: [term / other] multiplies by [1 / other], which between ints is
    floor division: dividing by the int 0 raises [ZeroDivisionError] and
    creates nothing, dividing by 1 multiplies by 1, dividing by an int of 2
    or more multiplies by 0, so a number coefficient becomes zero, and
    dividing by a negative int multiplies by -1. *)
Theorem division_by_int self w :
  __div__ reciprocal_times_term self (ONum (PyInt 0)) w
  = (Raise ZeroDivisionError, w) /\
  __div__ reciprocal_times_term self (ONum (PyInt 1)) w
  = __mul__ self (ONum (PyInt 1)) w /\
  (forall z, (2 <= z)%Z ->
     __div__ reciprocal_times_term self (ONum (PyInt z)) w
     = __mul__ self (ONum (PyInt 0)) w) /\
  (forall z, (z <= -1)%Z ->
     __div__ reciprocal_times_term self (ONum (PyInt z)) w
     = __mul__ self (ONum (PyInt (-1))) w) /\
  (forall o n z,
     heap w !! self = Some o -> cls o <> "Term" -> coeff o = CNum n ->
     (2 <= z)%Z ->
     exists l w' n',
       __div__ reciprocal_times_term self (ONum (PyInt z)) w = (Ok l, w') /\
       heap w' !! l = Some (leaf_node (cls o) (CNum n') (var o)) /\
       to_float n' == 0).
Proof.
  assert (forall z,
    __div__ reciprocal_times_term self (ONum (PyInt z)) w
    = if Z.eqb z 0 then (Raise ZeroDivisionError, w)
      else __mul__ self
             (ONum (PyInt (if Z.leb 2 z then 0
                           else if Z.eqb z 1 then 1 else -1))) w) as Hdiv.
  { intros z. unfold __div__, bind, lift. rewrite reciprocal_int.
    by destruct (Z.eqb z 0). }
  split; [apply Hdiv|]. split; [apply Hdiv|]. split; [|split].
  - intros z Hz. rewrite Hdiv.
    destruct (Z.eqb_spec z 0); [lia|]. destruct (Z.leb_spec 2 z); [done|lia].
  - intros z Hz. rewrite Hdiv.
    destruct (Z.eqb_spec z 0); [lia|]. destruct (Z.leb_spec 2 z); [lia|].
    destruct (Z.eqb_spec z 1); [lia|done].
  - intros o n z Ho Hcls Hc Hz. rewrite Hdiv.
    destruct (Z.eqb_spec z 0); [lia|]. destruct (Z.leb_spec 2 z); [|lia].
    rewrite (mul_run _ _ _ (CNum (mul_number (PyInt 0) n)) _ Ho Hcls)
      by (rewrite Hc; reflexivity).
    eexists _, _, _. split; [reflexivity|]. split.
    + by destruct (lookup_fresh w
        (leaf_node (cls o) (CNum (mul_number (PyInt 0) n)) (var o)))
        as (_ & ? & _).
    + rewrite to_float_mul. simpl. ring.
Qed.


End Division.

Section ReverseSubtraction.
Variable _BinaryTerm : nat -> operand -> M World nat.
Variable composite_neg : nat -> M World nat.

(** X22: [other - term] for a number [other] and a leaf term: the term is
    negated first, whatever [other] is; zero then gives the negated term
    itself, and any other number what the constructor of [_BinaryTerm]
    makes of the negated term and the number, with its sign unchanged: a
    composite right after the negated term. *)
Theorem reverse_subtraction self o k w :
  heap w !! self = Some o -> parts o = None -> cls o <> "Term" ->
  let negated_self := leaf_node (cls o) (negated (coeff o)) (var o) in
  let w1 := set_heap (heap w ++ [negated_self]) w in
  (is_zero_number (ONum k) = true ->
   __rsub__ _BinaryTerm composite_neg self k w = (Ok (length (heap w)), w1)) /\
  (is_zero_number (ONum k) = false ->
   __rsub__ _BinaryTerm composite_neg self k w
   = _BinaryTerm (length (heap w)) (ONum k) w1 /\
   __rsub__ BinaryTerm_new composite_neg self k w
   = (Ok (S (length (heap w))),
      set_heap (heap w ++ [negated_self;
                           binary_node (length (heap w)) (ONum k)]) w)).
Proof.
  intros Ho Hparts Hcls negated_self w1.
  assert (forall BT, __rsub__ BT composite_neg self k w
                     = __radd__ BT (length (heap w)) (ONum k) w1) as Hrsub.
  { intros BT. unfold __rsub__. unfold bind at 1.
    rewrite (deref_run _ _ _ Ho), Hparts. unfold bind.
    by rewrite (neg_run _ _ _ Ho Hcls). }
  split; intros Hz; rewrite !Hrsub; unfold __radd__, __add__; rewrite Hz.
  - done.
  - split; [done|]. unfold BinaryTerm_new. rewrite alloc_run. simpl.
    rewrite length_app, <- app_assoc. simpl. f_equal. f_equal. lia.
Qed.

End ReverseSubtraction.

(** X23: [cacheMatrix()] twice is [cacheMatrix()] once, and
    [cacheMatrix()] and [cacheRHSvector()] can be called in either order.
    [getMatrix()] returns the matrix the term holds and leaves the flag
    set; called again at once it returns the same and changes nothing, so
    it warns at most once.  The same holds of [getRHSvector()]. *)
Theorem cache_requests_compose self o w :
  heap w !! self = Some o ->
  bind (cacheMatrix self) (fun _ => cacheMatrix self) w = cacheMatrix self w /\
  bind (cacheMatrix self) (fun _ => cacheRHSvector self) w
  = bind (cacheRHSvector self) (fun _ => cacheMatrix self) w /\
  (forall r w1, getMatrix self w = (r, w1) ->
     r = Ok (matrix o) /\ getMatrix self w1 = (Ok (matrix o), w1) /\
     holds self (fun o1 => _cacheMatrix o1 = true /\ matrix o1 = matrix o) w1) /\
  (forall r w1, getRHSvector self w = (r, w1) ->
     r = Ok (RHSvector o) /\ getRHSvector self w1 = (Ok (RHSvector o), w1) /\
     holds self (fun o1 => _cacheRHSvector o1 = true
                           /\ RHSvector o1 = RHSvector o) w1).
Proof.
  intros Ho.
  assert (self < length (heap w))%nat as Hlt by by eapply lookup_lt_Some.
  assert (forall f, (<[self := f o]> (heap w)) !! self = Some (f o)) as Hat.
  { intros f. by apply list_lookup_insert_eq. }
  split; [|split; [|split]].
  - unfold cacheMatrix, bind. rewrite (update_run _ _ _ _ Ho).
    rewrite (update_run self set_cacheMatrix (set_cacheMatrix o)) by apply Hat.
    simpl. by rewrite list_insert_insert_eq.
  - unfold cacheMatrix, cacheRHSvector, bind. rewrite !(update_run _ _ _ _ Ho).
    rewrite (update_run self set_cacheRHSvector (set_cacheMatrix o)) by apply Hat.
    rewrite (update_run self set_cacheMatrix (set_cacheRHSvector o)) by apply Hat.
    simpl. by rewrite !list_insert_insert_eq.
  - intros r w1. rewrite (getMatrix_run _ _ _ Ho).
    destruct (_cacheMatrix o) eqn:Hflag; intros [= <- <-].
    + split; [done|]. rewrite (getMatrix_run _ _ _ Ho), Hflag.
      split; [done|]. by exists o.
    + split; [done|].
      rewrite (getMatrix_run self (set_cacheMatrix o)) by apply Hat.
      split; [done|]. exists (set_cacheMatrix o). split; [apply Hat | done].
  - intros r w1. rewrite (getRHSvector_run _ _ _ Ho).
    destruct (_cacheRHSvector o) eqn:Hflag; intros [= <- <-].
    + split; [done|]. rewrite (getRHSvector_run _ _ _ Ho), Hflag.
      split; [done|]. by exists o.
    + split; [done|].
      rewrite (getRHSvector_run self (set_cacheRHSvector o)) by apply Hat.
      split; [done|]. exists (set_cacheRHSvector o).
      split; [apply Hat | done].
Qed.

Section GeometryFacts.
Variable _calcGeomCoeff :
  string -> option (Obj -> nat -> string + option (list Q)).

Lemma getGeomCoeff_eval self mesh o w calls :
  heap w !! self = Some o ->
  _getGeomCoeff _calcGeomCoeff self mesh (w, calls) =
  match geomCoeff o with
  | Some g => (Ok (Some g), (w, calls))
  | None =>
      match call_calcGeomCoeff _calcGeomCoeff o mesh with
      | Raise e => (Raise e, (w, calls ++ [CalcGeomCoeff self mesh]))
      | Ok g =>
          (Ok g,
           (set_heap (<[self := set_geomCoeff g o]> (heap w)) w,
            (calls ++ [CalcGeomCoeff self mesh])
            ++ match g with Some _ => [DontCacheMe self] | None => [] end))
      end
  end.
Proof.
  intros Ho.
  assert (self < length (heap w))%nat as Hlt by by eapply lookup_lt_Some.
  unfold _getGeomCoeff, on_world, note, bind, modify, lift, ret.
  cbn [fst snd]. rewrite (deref_run _ _ _ Ho).
  destruct (geomCoeff o) as [g|] eqn:Hg.
  - cbn [fst snd]. rewrite (deref_run _ _ _ Ho). by rewrite Hg.
  - destruct (call_calcGeomCoeff _calcGeomCoeff o mesh) as [g|e]; [|done].
    cbn [fst snd]. rewrite (update_run _ _ _ _ Ho).
    destruct g as [g|]; cbn [fst snd].
    + rewrite (deref_run self (set_geomCoeff (Some g) o)); [done|].
      by apply list_lookup_insert_eq.
    + rewrite (deref_run self (set_geomCoeff None o));
        [|by apply list_lookup_insert_eq].
      by rewrite app_nil_r.
Qed.

(** X24: [_getGeomCoeff] computes the coefficient at most once.  A term
    that holds a coefficient returns it without calling [_calcGeomCoeff];
    one that holds none calls it once, keeps what it returns, tells it
    [dontCacheMe()], and from then on returns it for every mesh, the mesh
    of the first call or not.  For a class that inherits [_calcGeomCoeff]
    the call returns [None] and nothing is kept. *)
Theorem geometric_coefficient_memo self o w calls :
  heap w !! self = Some o ->
  (forall g, geomCoeff o = Some g ->
     forall mesh,
       _getGeomCoeff _calcGeomCoeff self mesh (w, calls)
       = (Ok (Some g), (w, calls))) /\
  (geomCoeff o = None ->
   forall mesh g,
     call_calcGeomCoeff _calcGeomCoeff o mesh = Ok (Some g) ->
     exists w1,
       _getGeomCoeff _calcGeomCoeff self mesh (w, calls)
       = (Ok (Some g),
          (w1, calls ++ [CalcGeomCoeff self mesh; DontCacheMe self])) /\
       forall mesh' calls',
         _getGeomCoeff _calcGeomCoeff self mesh' (w1, calls')
         = (Ok (Some g), (w1, calls'))) /\
  (geomCoeff o = None -> _calcGeomCoeff (cls o) = None ->
   forall mesh,
     exists w1 o1,
       _getGeomCoeff _calcGeomCoeff self mesh (w, calls)
       = (Ok None, (w1, calls ++ [CalcGeomCoeff self mesh])) /\
       heap w1 !! self = Some o1 /\ geomCoeff o1 = None /\ cls o1 = cls o).
Proof.
  intros Ho.
  assert (self < length (heap w))%nat as Hlt by by eapply lookup_lt_Some.
  split; [|split].
  - intros g Hg mesh. by rewrite (getGeomCoeff_eval _ _ _ _ _ Ho), Hg.
  - intros Hnone mesh g Hcalc.
    rewrite (getGeomCoeff_eval _ _ _ _ _ Ho), Hnone, Hcalc.
    eexists. rewrite <- app_assoc. split; [reflexivity|].
    intros mesh' calls'.
    rewrite (getGeomCoeff_eval self mesh' (set_geomCoeff (Some g) o)); [done|].
    by apply list_lookup_insert_eq.
  - intros Hnone Hcls mesh.
    rewrite (getGeomCoeff_eval _ _ _ _ _ Ho), Hnone.
    unfold call_calcGeomCoeff. rewrite Hcls. eexists _, _.
    rewrite app_nil_r. split; [reflexivity|]. split.
    + by apply list_lookup_insert_eq.
    + done.
Qed.

End GeometryFacts.

(** *** The extras on the examples *)


Lemma shaped_dt_rejected_witness :
  run example_classes Solve_entry 0 (Some varA) None (ManyBC [])
    (DtShaped "tuple" [1; 2]) world0
  = (Raise (TypeError ("`dt` must be a single number, not a " +:+ "tuple")),
     checked varA world0).
Proof.
  apply (shaped_dt_rejected example_classes Solve_entry 0 term_one (Some varA)
           varA None (ManyBC []) "tuple" [1; 2] world0); reflexivity.
Defined.

Lemma boundary_conditions_reset_in_order_witness :
  exists evs rest,
    log unit_build.2
    = log (checked varA world1)
      ++ (ResetBoundaryConditionApplied <$> as_tuple (ManyBC [7%nat; 8%nat]))
      ++ evs ++ BuildMatrix 2 varA (inject_Z 1) :: rest /\
    (evs = [] \/ evs = [NewViewer]) /\
    Forall (fun ev => is_setup ev = false) rest.
Proof.
  apply (boundary_conditions_reset_in_order example_classes 2 unit_term None
           varA (inject_Z 1) None (ManyBC [7%nat; 8%nat]) (DtNumber (PyInt 1))
           world1 unit_build.1 unit_build.2); reflexivity.
Defined.

Lemma build_returns_witness :
  exists w1,
    _prepareLinearSystem example_classes 2 None None (ManyBC [])
      (DtNumber (PyInt 1)) world1
    = (Ok (Some (varA, [[1]], [inject_Z 1])), w1) /\
    heap w1 = <[2%nat := cache unit_term [[1]] [inject_Z 1]]> (heap world1) /\
    values w1 = values world1 /\
    viewer w1 = (viewer world1 || display_matrix world1) /\
    forall s2 vals,
      _solve (Some (varA, [[1]], [inject_Z 1])) (values world1)
      = inr (s2, vals) ->
      exists w2,
        solve example_classes 2 None None (ManyBC []) (DtNumber (PyInt 1))
          world1 = (Ok s2, w2) /\
        heap w2 = <[2%nat := cache unit_term [[1]] [inject_Z 1]]> (heap world1) /\
        values w2 = vals /\
        log w2 = log w1 ++ [Solve].
Proof.
  exact (build_returns example_classes 2 unit_term None varA (inject_Z 1) varA
           [[1]] [inject_Z 1] None (ManyBC []) (DtNumber (PyInt 1)) world1
           eq_refl eq_refl eq_refl eq_refl eq_refl).
Defined.

Lemma default_solver_precedence_witness :
  (forall s1 s2,
      getDefaultSolver example_classes unit_term s1
      = getDefaultSolver example_classes unit_term s2 ->
      run example_classes Solve_entry 2 None s1 (ManyBC [])
        (DtNumber (PyInt 1)) world1
      = run example_classes Solve_entry 2 None s2 (ManyBC [])
          (DtNumber (PyInt 1)) world1) /\
  (_getDefaultSolver (example_classes (cls unit_term)) = None ->
   getDefaultSolver example_classes unit_term None = DefaultSolver /\
   (forall s, getDefaultSolver example_classes unit_term (Some s) = s) /\
   run example_classes Solve_entry 2 None None (ManyBC [])
     (DtNumber (PyInt 1)) world1
   = run example_classes Solve_entry 2 None (Some DefaultSolver) (ManyBC [])
       (DtNumber (PyInt 1)) world1) /\
  (forall f s0,
      _getDefaultSolver (example_classes (cls unit_term)) = Some f ->
      (forall s, f unit_term s = Some s0) ->
      forall s1 s2,
        run example_classes Solve_entry 2 None s1 (ManyBC [])
          (DtNumber (PyInt 1)) world1
        = run example_classes Solve_entry 2 None s2 (ManyBC [])
            (DtNumber (PyInt 1)) world1).
Proof.
  apply (default_solver_precedence example_classes Solve_entry 2 unit_term
           None (ManyBC []) (DtNumber (PyInt 1)) world1).
  reflexivity.
Defined.


Lemma display_does_not_alter_build_witness :
  unit_build.1 = unit_build_displayed.1 /\
  heap unit_build.2 = heap unit_build_displayed.2 /\
  values unit_build.2 = values unit_build_displayed.2 /\
  undisplayed (log unit_build.2) = undisplayed (log unit_build_displayed.2).
Proof.
  apply (display_does_not_alter_build example_classes 2 None None
           (ManyBC [7%nat; 8%nat]) (DtNumber (PyInt 1)) world1
           world1_displayed); reflexivity.
Defined.

(** With the matrix displayed the viewer is made, the matrix plotted and
    the user waited for; nothing else differs. *)
Example unit_build_log :
  log unit_build.2
  = [ResetBoundaryConditionApplied 7; ResetBoundaryConditionApplied 8;
     BuildMatrix 2 varA (inject_Z 1); StoreMatrix varA [[1]] [inject_Z 1]] /\
  log unit_build_displayed.2
  = [ResetBoundaryConditionApplied 7; ResetBoundaryConditionApplied 8;
     NewViewer; BuildMatrix 2 varA (inject_Z 1);
     StoreMatrix varA [[1]] [inject_Z 1];
     Plot "A UnitTerm" [[1]] [inject_Z 1]; RawInput].
Proof. split; reflexivity. Qed.

(** A sweep of the [UnitTerm]: the residual of the plain solver, and the
    value it solved for. *)
Example unit_sweep :
  exists w',
    sweep example_classes 2 None None (ManyBC []) (DtNumber (PyInt 1)) None
      None world1
    = (Ok (0, Some (varA, [[1]], [inject_Z 1])), w') /\
    values w' !! "A" = Some [inject_Z 1].
Proof. eexists. split; [reflexivity|]. vm_compute. reflexivity. Qed.

Lemma double_negation_witness :
  exists l w',
    bind (__neg__ 0) __neg__ world0 = (Ok l, w') /\
    heap world0 !! l = None /\
    heap w' !! l = Some (leaf_node "__Term" (CNum (PyFloat 1)) None) /\
    (forall l', (l' < length (heap world0))%nat ->
                heap w' !! l' = heap world0 !! l').
Proof. apply (double_negation 0 term_one world0); [reflexivity | discriminate]. Defined.

Lemma negation_versus_scaling_witness :
  exists l w1,
    __neg__ 0 world0 = (Ok l, w1) /\
    heap w1 !! l
    = Some (leaf_node "__Term" (negated (CNum (PyFloat 1))) None) /\
    exists w2 c,
      __mul__ 0 (ONum (PyInt (-1))) world0 = (Ok l, w2) /\
      heap w2 !! l = Some (leaf_node "__Term" c None) /\
      same_coefficient c (negated (CNum (PyFloat 1))).
Proof.
  apply (negation_versus_scaling 0 term_one world0);
    [reflexivity | discriminate].
Defined.

(** A term with the coefficient [(1., 2.)]: negated, and multiplied by the
    int -1. *)
Example negated_tuple :
  let w := (new "__Term" (CSeq [PyFloat 1; PyFloat 2]) None world0).2 in
  (exists w1, __neg__ 2 w = (Ok 3%nat, w1) /\
     coeff <$> heap w1 !! 3%nat = Some (CArray [- 1; - 2])) /\
  (exists w2, __mul__ 2 (ONum (PyInt (-1))) w = (Ok 3%nat, w2) /\
     coeff <$> heap w2 !! 3%nat = Some (CSeq [])).
Proof. split; eexists; split; reflexivity. Qed.



(** [__Term(2.) / 2.] of the doctest, and the same term divided by the
    int 2. *)
Example divide_by_two :
  let w := (new "__Term" (CNum (PyFloat 2)) None world0).2 in
  (exists w1, __div__ no_variables 2 (ONum (PyFloat 2)) w = (Ok 3%nat, w1) /\
     coeff <$> heap w1 !! 3%nat = Some (CNum (PyFloat (1 / 2 * 2)))) /\
  (exists w2, __div__ no_variables 2 (ONum (PyInt 2)) w = (Ok 3%nat, w2) /\
     coeff <$> heap w2 !! 3%nat = Some (CNum (PyFloat (inject_Z 0 * 2)))).
Proof. split; eexists; split; reflexivity. Qed.

Lemma reverse_subtraction_witness :
  (is_zero_number (ONum (PyFloat 10)) = true ->
   __rsub__ BinaryTerm_new __neg__ 0 (PyFloat 10) world0
   = (Ok (length (heap world0)),
      set_heap (heap world0
                ++ [leaf_node "__Term" (negated (CNum (PyFloat 1))) None])
        world0)) /\
  (is_zero_number (ONum (PyFloat 10)) = false ->
   __rsub__ BinaryTerm_new __neg__ 0 (PyFloat 10) world0
   = BinaryTerm_new (length (heap world0)) (ONum (PyFloat 10))
       (set_heap (heap world0
                  ++ [leaf_node "__Term" (negated (CNum (PyFloat 1))) None])
          world0) /\
   __rsub__ BinaryTerm_new __neg__ 0 (PyFloat 10) world0
   = (Ok (S (length (heap world0))),
      set_heap (heap world0
                ++ [leaf_node "__Term" (negated (CNum (PyFloat 1))) None;
                    binary_node (length (heap world0)) (ONum (PyFloat 10))])
        world0)).
Proof.
  apply (reverse_subtraction BinaryTerm_new __neg__ 0 term_one (PyFloat 10)
           world0); [reflexivity | reflexivity | discriminate].
Defined.

Lemma cache_requests_compose_witness :
  bind (cacheMatrix 0) (fun _ => cacheMatrix 0) world0 = cacheMatrix 0 world0 /\
  bind (cacheMatrix 0) (fun _ => cacheRHSvector 0) world0
  = bind (cacheRHSvector 0) (fun _ => cacheMatrix 0) world0 /\
  (forall r w1, getMatrix 0 world0 = (r, w1) ->
     r = Ok (matrix term_one) /\
     getMatrix 0 w1 = (Ok (matrix term_one), w1) /\
     holds 0 (fun o1 => _cacheMatrix o1 = true /\ matrix o1 = matrix term_one)
       w1) /\
  (forall r w1, getRHSvector 0 world0 = (r, w1) ->
     r = Ok (RHSvector term_one) /\
     getRHSvector 0 w1 = (Ok (RHSvector term_one), w1) /\
     holds 0 (fun o1 => _cacheRHSvector o1 = true
                        /\ RHSvector o1 = RHSvector term_one) w1).
Proof. apply (cache_requests_compose 0 term_one world0). reflexivity. Defined.

Lemma geometric_coefficient_memo_witness :
  (forall g, geomCoeff term_one = Some g ->
     forall mesh,
       _getGeomCoeff no_geometry 0 mesh (world0, [])
       = (Ok (Some g), (world0, []))) /\
  (geomCoeff term_one = None ->
   forall mesh g,
     call_calcGeomCoeff no_geometry term_one mesh = Ok (Some g) ->
     exists w1,
       _getGeomCoeff no_geometry 0 mesh (world0, [])
       = (Ok (Some g),
          (w1, [] ++ [CalcGeomCoeff 0 mesh; DontCacheMe 0])) /\
       forall mesh' calls',
         _getGeomCoeff no_geometry 0 mesh' (w1, calls')
         = (Ok (Some g), (w1, calls'))) /\
  (geomCoeff term_one = None -> no_geometry (cls term_one) = None ->
   forall mesh,
     exists w1 o1,
       _getGeomCoeff no_geometry 0 mesh (world0, [])
       = (Ok None, (w1, [] ++ [CalcGeomCoeff 0 mesh])) /\
       heap w1 !! 0%nat = Some o1 /\ geomCoeff o1 = None /\ cls o1 = cls term_one).
Proof.
  apply (geometric_coefficient_memo no_geometry 0 term_one world0 []).
  reflexivity.
Defined.

(** A class that computes its coefficient from the mesh: asked for mesh 1
    and then for mesh 2, the term answers with the coefficient of mesh 1,
    and [_calcGeomCoeff] is called once. *)
Example coefficient_of_the_first_mesh :
  let geometry := fun _ : string =>
    Some (fun (_ : Obj) (mesh : nat) =>
            inr (Some [inject_Z (Z.of_nat mesh)]) : string + option (list Q)) in
  let first := _getGeomCoeff geometry 0 1 (world0, []) in
  let second := _getGeomCoeff geometry 0 2 first.2 in
  first.1 = Ok (Some [inject_Z 1]) /\ second.1 = Ok (Some [inject_Z 1]) /\
  second.2.2 = [CalcGeomCoeff 0 1; DontCacheMe 0].
Proof. repeat split; reflexivity. Qed.

End TermFacts.
